(** * Request aggregation of the manga reader: a shallow embedding of
    [src/utils/requests.ts]

    The module under study builds query strings, issues HTTP GET requests
    against the MangaDex API and merges listing and cover-art responses
    into view models.  The embedding below follows the TypeScript source
    function by function:

    - JSON values as the code sees them at run time (everything is [any]),
      with the property reads, optional chaining, truthiness and string
      conversion the code relies on;
    - [URLSearchParams] as the list of name/value pairs it holds, with the
      form-urlencoded serializer behind [toString] and the [search]
      setter of [URL];
    - asynchronous functions as a small free monad over [fetch] and
      [console.error], run against a transport that answers each URL;
    - [Promise.all] as a batch: every task runs up to its first [fetch],
      then the tasks settle in an order chosen by the environment;
    - [Math.random] as a value supplied by the environment: a binary64
      number in [0, 1) for the carousel offset, a rearrangement for the
      random-comparator sort.

    The first part holds the definitions, the second the properties. *)

From Stdlib Require Import List String Ascii ZArith NArith Bool Lia Arith.
From Stdlib Require Import Permutation DecimalString.
Import ListNotations.
Local Open Scope list_scope.
Local Open Scope string_scope.

Set Implicit Arguments.
Set Warnings "-register-all".

(** ** Run-time values *)

Module Js.

(** Values that reach the code: what [JSON.parse] produces, plus
    [undefined].  Numbers are the integral ones (offsets, limits, status
    codes, versions); an object is the list of its own properties in
    creation order; strings hold the UTF-8 bytes of the text.  The
    [Date] of the type annotations never occurs: dates arrive as JSON
    strings and no caller passes one as a parameter. *)
Inductive Value : Type :=
| Undefined
| Null
| Bool (b : bool)
| Num (n : Z)
| Str (s : string)
| Arr (items : list Value)
| Obj (props : list (string * Value)).

(** Errors raised by the code or by the platform.  The text carried by a
    platform [TypeError] or [SyntaxError] is engine specific; here it
    names the operation that failed. *)
Inductive Error : Type :=
| Err (message : string)
| TypeError (message : string)
| SyntaxError (message : string).

(** A synchronous evaluation either throws or yields a value. *)
Definition Completion (A : Type) : Type := (Error + A)%type.

Definition ok {A} (a : A) : Completion A := inr a.
Definition throw {A} (e : Error) : Completion A := inl e.

Definition andThen {A B} (c : Completion A) (f : A -> Completion B)
  : Completion B :=
  match c with
  | inl e => inl e
  | inr a => f a
  end.

Fixpoint lookup (name : string) (props : list (string * Value)) : option Value :=
  match props with
  | [] => None
  | (k, v) :: rest => if String.eqb k name then Some v else lookup name rest
  end.

Definition isNullish (v : Value) : bool :=
  match v with
  | Undefined | Null => true
  | _ => false
  end.

(** [v.name] for the names the module reads ([id], [type], [attributes],
    [relationships], [data], [title], [en], ...): none of them is an
    index, [length] or an inherited member, so only an object's own
    properties can answer; reading from [undefined] or [null] throws. *)
Definition get (v : Value) (name : string) : Completion Value :=
  match v with
  | Undefined | Null =>
      throw (TypeError ("Cannot read properties of nullish value (reading '" ++ name ++ "')"))
  | Obj props =>
      match lookup name props with
      | Some x => ok x
      | None => ok Undefined
      end
  | _ => ok Undefined
  end.

(** [v?.name]: short-circuits to [undefined] on a nullish receiver. *)
Definition getOpt (v : Value) (name : string) : Value :=
  match v with
  | Obj props =>
      match lookup name props with
      | Some x => x
      | None => Undefined
      end
  | _ => Undefined
  end.

(** ToBoolean, as used by [||]. *)
Definition truthy (v : Value) : bool :=
  match v with
  | Undefined | Null => false
  | Bool b => b
  | Num n => negb (Z.eqb n 0)
  | Str s => negb (String.eqb s "")
  | Arr _ | Obj _ => true
  end.

(** [a || b] on already evaluated operands. *)
Definition orElse (a b : Value) : Value := if truthy a then a else b.

(** [v === "text"]. *)
Definition strictEqStr (v : Value) (text : string) : bool :=
  match v with
  | Str s => String.eqb s text
  | _ => false
  end.

(** The decimal text of an integer, as the engine prints integers of
    magnitude below 10^21. *)
Definition showZ (n : Z) : string := NilZero.string_of_int (Z.to_int n).

Fixpoint joinWith (sep : string) (parts : list string) : string :=
  match parts with
  | [] => ""
  | [p] => p
  | p :: rest => p ++ sep ++ joinWith sep rest
  end.

Fixpoint sequence {A} (cs : list (Completion A)) : Completion (list A) :=
  match cs with
  | [] => ok []
  | c :: rest =>
      andThen c (fun a => andThen (sequence rest) (fun r => ok (a :: r)))
  end.

Definition hasOwn (name : string) (props : list (string * Value)) : bool :=
  match lookup name props with
  | Some _ => true
  | None => false
  end.

(** ToString, as applied by template literals and by
    [URLSearchParams.append].  An array joins its elements with commas
    (nullish elements print as the empty text); a plain object prints as
    [[object Object]], unless an own [toString] property (never callable
    in parsed JSON) shadows the inherited method, in which case the
    conversion throws. *)
Fixpoint toString (v : Value) : Completion string :=
  match v with
  | Undefined => ok "undefined"
  | Null => ok "null"
  | Bool true => ok "true"
  | Bool false => ok "false"
  | Num n => ok (showZ n)
  | Str s => ok s
  | Arr items =>
      let element (x : Value) : Completion string :=
        if isNullish x then ok "" else toString x in
      andThen (sequence (map element items)) (fun parts => ok (joinWith "," parts))
  | Obj props =>
      if hasOwn "toString" props
      then throw (TypeError "Cannot convert object to primitive value")
      else ok "[object Object]"
  end.

End Js.

Import Js.

(** ** Query strings *)

Module Url.

Definition between (lo hi n : N) : bool := (lo <=? n)%N && (n <=? hi)%N.

Definition isAlnum (c : ascii) : bool :=
  let n := N_of_ascii c in
  between 48 57 n || between 65 90 n || between 97 122 n.

Definition hexDigit (n : N) : ascii :=
  ascii_of_N (if (n <? 10)%N then 48 + n else 55 + n).

Definition percent (c : ascii) : string :=
  let n := N_of_ascii c in
  String "%" (String (hexDigit (n / 16)) (String (hexDigit (n mod 16)) "")).

(** One byte under the application/x-www-form-urlencoded serializer:
    ASCII letters and digits and [* - . _] stay, a space becomes [+],
    every other byte is percent-encoded. *)
Definition formByte (c : ascii) : string :=
  let n := N_of_ascii c in
  if isAlnum c || (n =? 42)%N || (n =? 45)%N || (n =? 46)%N || (n =? 95)%N
  then String c ""
  else if (n =? 32)%N then "+"
  else percent c.

Fixpoint formEncode (s : string) : string :=
  match s with
  | EmptyString => ""
  | String c rest => formByte c ++ formEncode rest
  end.

(** [URLSearchParams]: the name/value pairs in the order appended. *)
Definition SearchParams : Type := list (string * string).

Definition append (sp : SearchParams) (name value : string) : SearchParams :=
  (sp ++ [(name, value)])%list.

Definition formPair (p : string * string) : string :=
  formEncode (fst p) ++ "=" ++ formEncode (snd p).

(** [searchParams.toString()]. *)
Definition render (sp : SearchParams) : string :=
  joinWith "&" (map formPair sp).

(** The bytes the [search] setter of a special-scheme URL escapes. *)
Definition queryEscaped (c : ascii) : bool :=
  let n := N_of_ascii c in
  (n <=? 32)%N || (126 <? n)%N || (n =? 34)%N || (n =? 35)%N
  || (n =? 39)%N || (n =? 60)%N || (n =? 62)%N.

Definition isStripped (c : ascii) : bool :=
  let n := N_of_ascii c in (n =? 9)%N || (n =? 10)%N || (n =? 13)%N.

Fixpoint queryEncode (s : string) : string :=
  match s with
  | EmptyString => ""
  | String c rest =>
      if isStripped c then queryEncode rest
      else (if queryEscaped c then percent c else String c "") ++ queryEncode rest
  end.

Definition dropQuestionMark (s : string) : string :=
  match s with
  | String "?" rest => rest
  | _ => s
  end.

(** [url.search = value] followed by reading [url.href], for a URL that
    has no fragment: the empty text clears the query, otherwise the text
    (less one leading [?]) runs through the query state of the parser. *)
Definition withSearch (href value : string) : string :=
  match value with
  | EmptyString => href
  | _ => href ++ "?" ++ queryEncode (dropQuestionMark value)
  end.

End Url.

(** ** Own keys of an object *)

Module Keys.

Definition digitOf (c : ascii) : option N :=
  let n := N_of_ascii c in
  if Url.between 48 57 n then Some (n - 48)%N else None.

Fixpoint parseDigits (s : string) (acc : N) : option N :=
  match s with
  | EmptyString => Some acc
  | String c rest =>
      match digitOf c with
      | Some d => parseDigits rest (10 * acc + d)%N
      | None => None
      end
  end.

(** A property name is an array index when it is the canonical decimal
    text of an integer below 2^32 - 1. *)
Definition arrayIndex (s : string) : option N :=
  match s with
  | EmptyString => None
  | String "0" EmptyString => Some 0%N
  | String "0" _ => None
  | _ =>
      match parseDigits s 0 with
      | Some n => if (n <=? 4294967294)%N then Some n else None
      | None => None
      end
  end.

Definition isIndex (s : string) : bool :=
  match arrayIndex s with
  | Some _ => true
  | None => false
  end.

Definition indexOf (s : string) : N :=
  match arrayIndex s with
  | Some n => n
  | None => 0%N
  end.

Fixpoint insertByIndex {V} (p : string * V) (sorted : list (string * V))
  : list (string * V) :=
  match sorted with
  | [] => [p]
  | q :: rest =>
      if (indexOf (fst p) <? indexOf (fst q))%N then p :: sorted
      else q :: insertByIndex p rest
  end.

Definition sortByIndex {V} (l : list (string * V)) : list (string * V) :=
  fold_right insertByIndex [] l.

(** [Object.entries]: index-like keys first, in ascending numeric order,
    then every other key in creation order. *)
Definition entries {V} (props : list (string * V)) : list (string * V) :=
  (sortByIndex (filter (fun p => isIndex (fst p)) props)
   ++ filter (fun p => negb (isIndex (fst p))) props)%list.

End Keys.

(** ** The query serializer and the request URL *)

(** [list.forEach(f)] with the effect on an accumulator made explicit;
    a throwing callback aborts the loop. *)
Fixpoint forEach {A S} (f : S -> A -> Completion S) (l : list A) (s : S)
  : Completion S :=
  match l with
  | [] => ok s
  | a :: rest => andThen (f s a) (forEach f rest)
  end.

(** [searchParams.append(name, value)] with [value] still a run-time
    value: the platform converts it to text first. *)
Definition appendValue (name : string) (sp : Url.SearchParams) (value : Value)
  : Completion Url.SearchParams :=
  andThen (toString value) (fun text => ok (Url.append sp name text)).

(** The body of the [forEach] callback in [serializeParameters]:
    arrays give repeated [key[]] pairs, objects give [key[k]] pairs
    ([typeof null] is ["object"] too and [Object.entries(null)] throws),
    anything else is appended under the key itself. *)
Definition serializeEntry (sp : Url.SearchParams) (entry : string * Value)
  : Completion Url.SearchParams :=
  let '(key, value) := entry in
  match value with
  | Arr items => forEach (appendValue (key ++ "[]")) items sp
  | Obj props =>
      forEach (fun acc kv => appendValue (key ++ "[" ++ fst kv ++ "]") acc (snd kv))
              (Keys.entries props) sp
  | Null => throw (TypeError "Cannot convert undefined or null to object")
  | _ => appendValue key sp value
  end.

(** The name/value pairs [serializeParameters] appends, in order. *)
Definition collectParameters (params : list (string * Value))
  : Completion Url.SearchParams :=
  forEach serializeEntry (Keys.entries params) [].

Definition serializeParameters (params : list (string * Value))
  : Completion string :=
  andThen (collectParameters params) (fun sp => ok (Url.render sp)).

Definition baseUrl : string := "https://api.mangadex.org/".

(** The URL [fetchJson] requests, for an endpoint the URL parser leaves
    as it is, such as ["manga"], the one every caller passes.  An
    endpoint that brings a query or a fragment of its own is outside
    this definition: the parser would split it off before [search] is
    set. *)
Definition requestUrl (endpoint : string) (params : list (string * Value))
  : Completion string :=
  andThen (serializeParameters params)
          (fun serializedParams =>
             ok (Url.withSearch (baseUrl ++ endpoint) serializedParams)).

(** ** The transport and asynchronous code *)

Module Net.

(** An HTTP response as the code reads it: the status line, the result of
    parsing the body as JSON ([None] when it is not JSON) and its raw
    bytes.  Reading the body is taken as part of the reply: a task
    suspends once per request. *)
Record Response : Type := {
  status : Z;
  statusText : string;
  json : option Value;
  bytes : string
}.

(** What [fetch(url)] settles to: a response, or a rejection when the
    request never completes. *)
Inductive Reply : Type :=
| Unreachable
| Responded (res : Response).

(** [response.ok]. *)
Definition isOk (res : Response) : bool :=
  (200 <=? status res)%Z && (status res <=? 299)%Z.

(** What an observer sees of a run: the requests issued and the lines
    written with [console.error]. *)
Inductive Event : Type :=
| Requested (url : string)
| Logged (label : string) (e : Error).

(** How a promise settles. *)
Inductive Settlement (A : Type) : Type :=
| Fulfilled (a : A)
| Rejected (e : Error).
Arguments Fulfilled {A} a.
Arguments Rejected {A} e.

(** The body of an [async] function: it returns, throws, writes to the
    console, or suspends on a request and resumes with the reply. *)
Inductive Async (A : Type) : Type :=
| Return (a : A)
| Throw (e : Error)
| ConsoleError (label : string) (e : Error) (next : Async A)
| Fetch (url : string) (resume : Reply -> Async A).
Arguments Return {A} a.
Arguments Throw {A} e.
Arguments ConsoleError {A} label e next.
Arguments Fetch {A} url resume.

Fixpoint bind {A B} (m : Async A) (f : A -> Async B) : Async B :=
  match m with
  | Return a => f a
  | Throw e => Throw e
  | ConsoleError label e next => ConsoleError label e (bind next f)
  | Fetch url resume => Fetch url (fun reply => bind (resume reply) f)
  end.

(** [try { m } catch (error) { handler }]. *)
Fixpoint tryCatch {A} (m : Async A) (handler : Error -> Async A) : Async A :=
  match m with
  | Return a => Return a
  | Throw e => handler e
  | ConsoleError label e next => ConsoleError label e (tryCatch next handler)
  | Fetch url resume => Fetch url (fun reply => tryCatch (resume reply) handler)
  end.

(** A synchronous evaluation inside an [async] body. *)
Definition lift {A} (c : Completion A) : Async A :=
  match c with
  | inl e => Throw e
  | inr a => Return a
  end.

(** [await fetch(url, config)]; the configuration only carries caching
    hints. *)
Definition fetch (url : string) : Async Response :=
  Fetch url (fun reply =>
    match reply with
    | Unreachable => Throw (TypeError "fetch failed")
    | Responded res => Return res
    end).

(** [await res.json()]. *)
Definition readJson (res : Response) : Async Value :=
  match json res with
  | Some v => Return v
  | None => Throw (SyntaxError "Unexpected token in JSON")
  end.

(** The environment of one aggregator call: the transport, the order in
    which the requests of a batch complete, the number [Math.random()]
    returns first, and the outcome of sorting with a random comparator. *)
Record World : Type := {
  http : string -> Reply;
  settleOrder : list nat;
  randomMantissa : Z;
  randomExponent : Z;
  shuffleCode : list nat
}.

(** The part of a run seen up to the moment the awaited promise settles
    ([trace]) and what unfinished tasks of a rejected batch still do
    afterwards ([late]). *)
Record Run (A : Type) : Type := {
  outcome : Settlement A;
  trace : list Event;
  late : list Event
}.

Definition emit {A} (ev : Event) (r : Run A) : Run A :=
  {| outcome := outcome r; trace := ev :: trace r; late := late r |}.

(** [await m] on its own: the body runs to completion, each request
    answered by the transport. *)
Fixpoint await {A} (w : World) (m : Async A) : Run A :=
  match m with
  | Return a => {| outcome := Fulfilled a; trace := []; late := [] |}
  | Throw e => {| outcome := Rejected e; trace := []; late := [] |}
  | ConsoleError label e next => emit (Logged label e) (await w next)
  | Fetch url resume => emit (Requested url) (await w (resume (http w url)))
  end.

(** A task of a batch after its synchronous prefix. *)
Inductive Task (A : Type) : Type :=
| Settled (s : Settlement A)
| Pending (url : string) (resume : Reply -> Async A).
Arguments Settled {A} s.
Arguments Pending {A} url resume.

(** Calling an [async] function runs its body up to the first [await]
    that suspends. *)
Fixpoint start {A} (m : Async A) : list Event * Task A :=
  match m with
  | Return a => ([], Settled (Fulfilled a))
  | Throw e => ([], Settled (Rejected e))
  | ConsoleError label e next =>
      let '(evs, t) := start next in (Logged label e :: evs, t)
  | Fetch url resume => ([Requested url], Pending url resume)
  end.

(** The rest of a task once its reply arrives. *)
Definition finish {A} (w : World) (t : Task A) : Run A :=
  match t with
  | Settled s => {| outcome := s; trace := []; late := [] |}
  | Pending url resume => await w (resume (http w url))
  end.

Definition isPending {A} (t : Task A) : bool :=
  match t with
  | Pending _ _ => true
  | Settled _ => false
  end.

(** Drops every index that occurred earlier in the list. *)
Definition firstOccurrences (l : list nat) : list nat :=
  rev (nodup Nat.eq_dec (rev l)).

(** The order in which [n] suspended tasks complete: the indices the
    environment names first, then the others by position. *)
Definition settleSequence (sched : list nat) (n : nat) : list nat :=
  firstOccurrences (filter (fun i => Nat.ltb i n) sched ++ seq 0 n)%list.

Definition traceAt {A} (runs : list (Run A)) (i : nat) : list Event :=
  match nth_error runs i with
  | Some r => trace r
  | None => []
  end.

(** Walks the tasks in completion order up to the first rejection:
    the error, the events up to and including that task, and the events
    of the tasks that complete later. *)
Fixpoint settleInOrder {A} (order : list nat) (runs : list (Run A))
  : option Error * list Event * list Event :=
  match order with
  | [] => (None, [], [])
  | i :: rest =>
      match nth_error runs i with
      | Some r =>
          match outcome r with
          | Rejected e => (Some e, trace r, flat_map (traceAt runs) rest)
          | Fulfilled _ =>
              let '(rej, before, after) := settleInOrder rest runs in
              (rej, (trace r ++ before)%list, after)
          end
      | None => settleInOrder rest runs
      end
  end.

Definition valuesOf {A} (runs : list (Run A)) : list A :=
  flat_map (fun r => match outcome r with
                     | Fulfilled a => [a]
                     | Rejected _ => []
                     end) runs.

(** How each task of a batch ends once its reply is in. *)
Definition batchRuns {A} (w : World) (tasks : list (Async A)) : list (Run A) :=
  map (finish w) (map snd (map start tasks)).

(** [await Promise.all(tasks)], the tasks being calls of [async]
    functions: each call runs up to its first request, in list order;
    tasks that settled without suspending are seen first, the others as
    their replies arrive.  The batch rejects with the first rejection
    seen and otherwise fulfils with the values in list order. *)
Definition awaitAll {A} (w : World) (tasks : list (Async A)) : Run (list A) :=
  let started := map start tasks in
  let issued := flat_map fst started in
  let states := map snd started in
  let runs := batchRuns w tasks in
  let n := List.length tasks in
  let pendingAt i := match nth_error states i with
                     | Some t => isPending t
                     | None => false
                     end in
  let order := (filter (fun i => negb (pendingAt i)) (seq 0 n)
                ++ filter pendingAt (settleSequence (settleOrder w) n))%list in
  match settleInOrder order runs with
  | (Some e, before, after) =>
      {| outcome := Rejected e; trace := (issued ++ before)%list; late := after |}
  | (None, before, _) =>
      {| outcome := Fulfilled (valuesOf runs); trace := (issued ++ before)%list; late := [] |}
  end.

(** Sequencing at the level of a run. *)
Definition thenRun {A B} (r : Run A) (f : A -> Run B) : Run B :=
  match outcome r with
  | Fulfilled a =>
      let r' := f a in
      {| outcome := outcome r';
         trace := (trace r ++ trace r')%list;
         late := (late r ++ late r')%list |}
  | Rejected e => {| outcome := Rejected e; trace := trace r; late := late r |}
  end.

Definition catchRun {A} (r : Run A) (handler : Error -> Run A) : Run A :=
  match outcome r with
  | Fulfilled a => r
  | Rejected e =>
      let r' := handler e in
      {| outcome := outcome r';
         trace := (trace r ++ trace r')%list;
         late := (late r ++ late r')%list |}
  end.

Definition done {A} (s : Settlement A) : Run A :=
  {| outcome := s; trace := []; late := [] |}.

Definition liftRun {A} (c : Completion A) : Run A :=
  match c with
  | inl e => done (Rejected e)
  | inr a => done (Fulfilled a)
  end.

(** The outer [catch (error) { console.error(label, error); throw error; }]
    of an aggregator. *)
Definition logAndRethrow {A} (label : string) (r : Run A) : Run A :=
  catchRun r (fun error =>
    {| outcome := Rejected error; trace := [Logged label error]; late := [] |}).

(** Everything written and requested, in order. *)
Definition observed {A} (r : Run A) : list Event := (trace r ++ late r)%list.

End Net.

Import Net.

Declare Scope async_scope.
Delimit Scope async_scope with async.
Notation "x <- m ;; k" := (Net.bind m (fun x => k))
  (at level 61, m at next level, right associativity) : async_scope.

Declare Scope run_scope.
Delimit Scope run_scope with run.
Notation "x <- m ;; k" := (Net.thenRun m (fun x => k))
  (at level 61, m at next level, right associativity) : run_scope.

(** ** Platform helpers used by the module *)

Module Platform.

Definition b64Alphabet : string :=
  "ABCDEFGHIJKLMNOPQRSTUVWXYZabcdefghijklmnopqrstuvwxyz0123456789+/".

Definition b64Char (n : N) : ascii :=
  match String.get (N.to_nat n) b64Alphabet with
  | Some c => c
  | None => "="%char
  end.

(** [Buffer.from(buffer).toString("base64")]. *)
Fixpoint base64 (s : string) : string :=
  match s with
  | EmptyString => ""
  | String a EmptyString =>
      let x := N_of_ascii a in
      String (b64Char (x / 4)) (String (b64Char ((x mod 4) * 16)) "==")
  | String a (String b EmptyString) =>
      let x := N_of_ascii a in
      let y := N_of_ascii b in
      String (b64Char (x / 4))
        (String (b64Char ((x mod 4) * 16 + y / 16))
           (String (b64Char ((y mod 16) * 4)) "="))
  | String a (String b (String c rest)) =>
      let x := N_of_ascii a in
      let y := N_of_ascii b in
      let z := N_of_ascii c in
      String (b64Char (x / 4))
        (String (b64Char ((x mod 4) * 16 + y / 16))
           (String (b64Char ((y mod 16) * 4 + z / 64))
              (String (b64Char (z mod 64)) (base64 rest))))
  end.

(** Rounding a non-negative integer to 53 significant bits, ties to
    even: the rounding of binary64 arithmetic on the numerator of a
    dyadic fraction. *)
Definition round53 (n : Z) : Z :=
  let excess := (Z.log2 n + 1 - 53)%Z in
  if (excess <=? 0)%Z then n
  else
    let q := (n / 2 ^ excess)%Z in
    let r := (n mod 2 ^ excess)%Z in
    let half := (2 ^ (excess - 1))%Z in
    let up := (half <? r)%Z || ((r =? half)%Z && Z.odd q) in
    ((if up then q + 1 else q) * 2 ^ excess)%Z.

(** [Math.random()] returns a binary64 number in [0, 1): such a number
    is [m / 2^e] with [0 <= m < 2^53] and [53 <= e <= 1074].  Whatever
    the environment holds is read as one. *)
Definition randomNumerator (w : World) : Z := (randomMantissa w mod 2 ^ 53)%Z.
Definition randomScale (w : World) : Z := (53 + randomExponent w mod 1022)%Z.

(** [Math.floor(Math.random() * count)] for a small positive integer
    [count]: the product is rounded to binary64, then floored. *)
Definition floorRandomTimes (w : World) (count : Z) : Z :=
  (round53 (randomNumerator w * count) / 2 ^ randomScale w)%Z.

(** A rearrangement read off a list of numbers: each number selects one
    of the elements still left. *)
Fixpoint arrange {A} (code : list nat) (l : list A) : list A :=
  match code with
  | [] => l
  | c :: cs =>
      match l with
      | [] => []
      | x :: _ =>
          let i := Nat.modulo c (List.length l) in
          nth i l x :: arrange cs (firstn i l ++ skipn (S i) l)%list
      end
  end.

Definition isUndefined (v : Value) : bool :=
  match v with
  | Undefined => true
  | _ => false
  end.

(** [items.sort(() => Math.random() - 0.5)]: the comparator answers at
    random, so the resulting order is up to the engine and the random
    source; [undefined] elements are moved to the end without being
    compared. *)
Definition sortRandomly (w : World) (items : list Value) : list Value :=
  (arrange (shuffleCode w) (filter (fun v => negb (isUndefined v)) items)
   ++ filter isUndefined items)%list.

(** [items.slice(0, count)]. *)
Definition slice0 {A} (count : nat) (items : list A) : list A := firstn count items.

(** The receiver of a call [v.method(...)] of an array method. *)
Definition arrayReceiver (v : Value) (method : string) : Completion (list Value) :=
  match v with
  | Arr items => ok items
  | Undefined | Null =>
      throw (TypeError ("Cannot read properties of nullish value (reading '" ++ method ++ "')"))
  | _ => throw (TypeError (method ++ " is not a function"))
  end.

(** [items.find(pred)]. *)
Definition findValue (pred : Value -> bool) (items : list Value) : Value :=
  match find pred items with
  | Some v => v
  | None => Undefined
  end.

End Platform.

Import Platform.

(** ** The API client *)

Declare Scope completion_scope.
Delimit Scope completion_scope with completion.
Notation "x <- c ;; k" := (andThen c (fun x => k))
  (at level 61, c at next level, right associativity) : completion_scope.

(** [v.a.b...]: each step throws on a nullish receiver. *)
Definition getPath (v : Value) (names : list string) : Completion Value :=
  fold_left (fun c name => andThen c (fun x => get x name)) names (ok v).

(** [v?.a?.b...]. *)
Definition getOptPath (v : Value) (names : list string) : Value :=
  fold_left getOpt names v.

Definition fetchJson (endpoint : string) (params : list (string * Value))
  : Async Value :=
  (url <- lift (requestUrl endpoint params) ;;
   tryCatch
     (res <- fetch url ;;
      if negb (isOk res)
      then Throw (Err ("HTTP error! Status: " ++ showZ (status res)))
      else readJson res)
     (fun error => ConsoleError "Fetch error:" error (Throw error)))%async.

(** The parameters [order], [offset] and [limit] default to [{}], [0]
    and [100] in the source; the call sites below spell the defaults out. *)
Definition fetchCovers (ids order offset limit : Value) : Async Value :=
  fetchJson "manga"
    [("ids", ids);
     ("order", order);
     ("includes", Arr [Str "cover_art"; Str "author"; Str "artist";
                       Str "tag"; Str "user"; Str "scanlation_group"]);
     ("offset", offset);
     ("limit", limit)].

Definition fetchCover (image : string) : Async string :=
  tryCatch
    (response <- fetch image ;;
     if negb (isOk response)
     then Throw (Err ("Failed to fetch image (" ++ showZ (status response)
                      ++ "): " ++ statusText response))
     else
       let base64Image := base64 (bytes response) in
       Return ("data:image/jpeg;base64," ++ base64Image))%async
    (fun error => ConsoleError "Error fetching image:" error (Throw error)).

Definition fetchLatestChapters (offset limit : Z) : Async Value :=
  fetchJson "manga"
    [("offset", Num offset);
     ("limit", Num limit);
     ("order", Obj [("updatedAt", Str "desc")])].

(** ** View models *)

Definition coversHost : string := "https://uploads.mangadex.org/covers/".

(** [items.map((k) => k.id)]. *)
Definition idsOf (items : list Value) : Completion Value :=
  (ids <- sequence (map (fun k => get k "id") items) ;;
   ok (Arr ids))%completion.

(** [listing?.data.map((k) => k.id)] of [getLatestManga] and
    [searchManga]: only the first link of the chain is optional. *)
Definition listedIds (listing : Value) : Completion Value :=
  if isNullish listing then ok Undefined
  else (data <- get listing "data" ;;
        items <- arrayReceiver data "map" ;;
        idsOf items)%completion.

(** [k?.relationships?.find((t) => t?.type === "cover_art")?.attributes?.fileName]. *)
Definition coverFileName (k : Value) : Completion Value :=
  match getOpt k "relationships" with
  | Undefined | Null => ok Undefined
  | Arr items =>
      let found := findValue (fun t => strictEqStr (getOpt t "type") "cover_art") items in
      ok (getOptPath found ["attributes"; "fileName"])
  | _ => throw (TypeError "find is not a function")
  end.

(** The template literal handed to [fetchCover] by [getLatestManga] and
    [searchManga]. *)
Definition coverUrl (k : Value) : Completion string :=
  (idText <- toString (getOpt k "id") ;;
   fileName <- coverFileName k ;;
   fileText <- toString fileName ;;
   ok (coversHost ++ idText ++ "/" ++ fileText ++ ".256.jpg"))%completion.

(** [k?.attributes?.title?.en || k?.attributes?.title?.["ja-ro"] || k?.attributes?.title?.ja]. *)
Definition titleOf (k : Value) : Value :=
  orElse (orElse (getOptPath k ["attributes"; "title"; "en"])
                 (getOptPath k ["attributes"; "title"; "ja-ro"]))
         (getOptPath k ["attributes"; "title"; "ja"]).

(** The [async (k) => ({...})] callback of [getLatestManga]; the one of
    [searchManga] is the same text. *)
Definition listItem (k : Value) : Async Value :=
  (let id := getOpt k "id" in
   let updatedAt := getOptPath k ["attributes"; "updatedAt"] in
   image <- lift (coverUrl k) ;;
   cover <- fetchCover image ;;
   Return (Obj [("id", id);
                ("updatedAt", updatedAt);
                ("cover", Str cover);
                ("title", titleOf k)]))%async.

(** [covers?.data?.map(async (k) => ...) || []]. *)
Definition listTasks (covers : Value) : Completion (list (Async Value)) :=
  match getOpt covers "data" with
  | Undefined | Null => ok []
  | Arr items => ok (map listItem items)
  | _ => throw (TypeError "map is not a function")
  end.

(** [items.find((t) => t.type === "cover_art")]: the callback reads
    [type] without a guard. *)
Fixpoint findCoverArt (items : list Value) : Completion Value :=
  match items with
  | [] => ok Undefined
  | t :: rest =>
      (type <- get t "type" ;;
       if strictEqStr type "cover_art" then ok t else findCoverArt rest)%completion
  end.

(** The template literal handed to [fetchCover] by [Carousel]. *)
Definition carouselCoverUrl (manga : Value) : Completion string :=
  (id <- get manga "id" ;;
   idText <- toString id ;;
   relationships <- get manga "relationships" ;;
   items <- arrayReceiver relationships "find" ;;
   found <- findCoverArt items ;;
   fileName <- getPath found ["attributes"; "fileName"] ;;
   fileText <- toString fileName ;;
   ok (coversHost ++ idText ++ "/" ++ fileText ++ ".256.jpg"))%completion.

(** [manga.attributes.title.en || manga?.attributes?.title?.["ja-ro"]]. *)
Definition carouselTitle (manga : Value) : Completion Value :=
  (en <- getPath manga ["attributes"; "title"; "en"] ;;
   ok (orElse en (getOptPath manga ["attributes"; "title"; "ja-ro"])))%completion.

(** The [async (manga) => ({...})] callback of [Carousel]; the fields
    are evaluated in the order written. *)
Definition carouselItem (manga : Value) : Async Value :=
  (id <- lift (get manga "id") ;;
   tags <- lift (getPath manga ["attributes"; "tags"]) ;;
   image <- lift (carouselCoverUrl manga) ;;
   cover <- fetchCover image ;;
   title <- lift (carouselTitle manga) ;;
   contentRating <- lift (getPath manga ["attributes"; "contentRating"]) ;;
   publicationDemographic <- lift (getPath manga ["attributes"; "publicationDemographic"]) ;;
   status <- lift (getPath manga ["attributes"; "status"]) ;;
   description <- lift (getPath manga ["attributes"; "description"; "en"]) ;;
   type <- lift (get manga "type") ;;
   Return (Obj [("id", id);
                ("tags", tags);
                ("cover", Str cover);
                ("title", title);
                ("contentRating", contentRating);
                ("publicationDemographic", publicationDemographic);
                ("status", status);
                ("description", description);
                ("type", type)]))%async.

(** ** The aggregators *)

Definition descendingByUpdate : Value := Obj [("updatedAt", Str "desc")].

(** The steps shared by [getLatestManga] and [searchManga] once the
    listing has arrived. *)
Definition resolveListing (w : World) (listing : Value) : Run Value :=
  (ids <- liftRun (listedIds listing) ;;
   covers <- await w (fetchCovers ids descendingByUpdate (Num 0) (Num 100)) ;;
   tasks <- liftRun (listTasks covers) ;;
   returnedManga <- awaitAll w tasks ;;
   done (Fulfilled (Arr returnedManga)))%run.

Definition getLatestManga (w : World) : Run Value :=
  logAndRethrow "Error in getLatestManga:"
    (latest <- await w (fetchLatestChapters 0 60) ;;
     resolveListing w latest)%run.

(** The label logged by [searchManga] is the one of [getLatestManga] in
    the source as well. *)
Definition searchManga (w : World) (search : string) : Run Value :=
  logAndRethrow "Error in getLatestManga:"
    (searched <- await w (fetchJson "manga" [("title", Str search)]) ;;
     resolveListing w searched)%run.

(** [req?.data?.map((m) => m?.id)]. *)
Definition pageIds (req : Value) : Completion Value :=
  match getOpt req "data" with
  | Undefined | Null => ok Undefined
  | Arr items => ok (Arr (map (fun m => getOpt m "id") items))
  | _ => throw (TypeError "map is not a function")
  end.

(** [getRandomManga(mangaData, count)]: a random-comparator sort of
    [mangaData?.data], then [slice(0, count)] on the result without a
    guard. *)
Definition getRandomManga (w : World) (mangaData : Value) (count : nat)
  : Completion (list Value) :=
  match getOpt mangaData "data" with
  | Undefined | Null =>
      throw (TypeError "Cannot read properties of nullish value (reading 'slice')")
  | Arr items => ok (slice0 count (sortRandomly w items))
  | _ => throw (TypeError "sort is not a function")
  end.

Definition carouselParams (randomOffset : Z) : list (string * Value) :=
  [("offset", Num randomOffset);
   ("limit", Num 20);
   ("order", Obj [("followedCount", Str "desc"); ("rating", Str "desc")])].

Definition Carousel (w : World) : Run Value :=
  logAndRethrow "Error in Carousel:"
    (let randomOffset := floorRandomTimes w 200 in
     req <- await w (fetchJson "manga" (carouselParams randomOffset)) ;;
     mangaIds <- liftRun (pageIds req) ;;
     manga <- await w (fetchCovers mangaIds (Obj []) (Num 0) (Num 100)) ;;
     selectedManga <- liftRun (getRandomManga w manga 6) ;;
     returnedManga <- awaitAll w (map carouselItem selectedManga) ;;
     done (Fulfilled (Arr returnedManga)))%run.

Definition rankedParams (field : string) : list (string * Value) :=
  [("limit", Num 10); ("order", Obj [(field, Str "desc")])].

(** [req.data.map((manga) => manga.id)]. *)
Definition rankedIds (req : Value) : Completion Value :=
  (data <- get req "data" ;;
   items <- arrayReceiver data "map" ;;
   idsOf items)%completion.

Definition topListingQueries : list (Async Value) :=
  [fetchJson "manga" (rankedParams "followedCount");
   fetchJson "manga" (rankedParams "rating");
   fetchJson "manga" (rankedParams "readingProgress")].

Definition fetchTopListings (w : World) : Run Value :=
  logAndRethrow "Error in fetchTopListings:"
    (batch <- awaitAll w topListingQueries ;;
     let reqTopFollowed := nth 0 batch Undefined in
     let reqTopRated := nth 1 batch Undefined in
     let reqTopRead := nth 2 batch Undefined in
     followedIds <- liftRun (rankedIds reqTopFollowed) ;;
     popular <- await w (fetchCovers followedIds (Obj []) (Num 0) (Num 100)) ;;
     ratedIds <- liftRun (rankedIds reqTopRated) ;;
     topRated <- await w (fetchCovers ratedIds (Obj []) (Num 0) (Num 100)) ;;
     readIds <- liftRun (rankedIds reqTopRead) ;;
     topRead <- await w (fetchCovers readIds (Obj []) (Num 0) (Num 100)) ;;
     liftRun (popularData <- get popular "data" ;;
              topRatedData <- get topRated "data" ;;
              topReadData <- get topRead "data" ;;
              ok (Obj [("popular", popularData);
                       ("topRated", topRatedData);
                       ("topRead", topReadData)]))%completion)%run.

(** ** What the specification says about the serializer *)

(** The text a scalar is appended as. *)
Definition plainText (v : Value) : string :=
  match v with
  | Str s => s
  | Num n => showZ n
  | Bool true => "true"
  | Bool false => "false"
  | _ => "undefined"
  end.

Definition isScalar (v : Value) : bool :=
  match v with
  | Undefined | Bool _ | Num _ | Str _ => true
  | _ => false
  end.

(** The pairs the specification asks for: repeated [name[]=v] pairs for
    an array, [name[key]=value] pairs for a nested object, the value
    itself for a scalar. *)
Definition specPairs (entry : string * Value) : Url.SearchParams :=
  let '(key, value) := entry in
  match value with
  | Arr items => map (fun x => (key ++ "[]", plainText x)) items
  | Obj props => map (fun kv => (key ++ "[" ++ fst kv ++ "]", plainText (snd kv))) props
  | _ => [(key, plainText value)]
  end.

Definition plainKey {V} (p : string * V) : bool := negb (Keys.isIndex (fst p)).

(** The parameter mappings of type [QueryParam]: scalars, arrays of
    scalars and flat objects, under keys that are not array indices. *)
Definition queryValue (v : Value) : bool :=
  match v with
  | Arr items => forallb isScalar items
  | Obj props => forallb (fun kv => plainKey kv && isScalar (snd kv)) props
  | Null => false
  | _ => true
  end.

Definition queryParam (params : list (string * Value)) : bool :=
  forallb (fun p => plainKey p && queryValue (snd p)) params.

(** [hay.includes(needle)]. *)
Fixpoint contains (needle hay : string) : bool :=
  String.prefix needle hay
  || match hay with
     | EmptyString => false
     | String _ rest => contains needle rest
     end.

(** ** What the specification says about the aggregators *)

(** The four aggregator calls. *)
Inductive Aggregator : Type :=
| LatestManga
| SearchManga (search : string)
| CarouselManga
| TopListings.

Definition call (w : World) (a : Aggregator) : Run Value :=
  match a with
  | LatestManga => getLatestManga w
  | SearchManga search => searchManga w search
  | CarouselManga => Carousel w
  | TopListings => fetchTopListings w
  end.


(** The parameters of the listing request(s) an aggregator begins with. *)
Definition primaryParams (w : World) (a : Aggregator) : list (list (string * Value)) :=
  match a with
  | LatestManga =>
      [[("offset", Num 0); ("limit", Num 60); ("order", Obj [("updatedAt", Str "desc")])]]
  | SearchManga search => [[("title", Str search)]]
  | CarouselManga => [carouselParams (floorRandomTimes w 200)]
  | TopListings =>
      [rankedParams "followedCount"; rankedParams "rating"; rankedParams "readingProgress"]
  end.

Definition urlsOf (requests : list (list (string * Value))) : list string :=
  flat_map (fun params => match requestUrl "manga" params with
                          | inr url => [url]
                          | inl _ => []
                          end) requests.

Definition primaryUrls (w : World) (a : Aggregator) : list string :=
  urlsOf (primaryParams w a).

(** The error [fetchJson] throws on a response outside the success
    range. *)
Definition httpError (res : Response) : Error :=
  Err ("HTTP error! Status: " ++ showZ (status res)).



(** *** Sample transports *)

Definition reply (code : Z) (text : string) (body : option Value) (raw : string) : Reply :=
  Responded {| status := code; statusText := text; json := body; bytes := raw |}.

Definition quietWorld (transport : string -> Reply) : World :=
  {| http := transport; settleOrder := []; randomMantissa := 0;
     randomExponent := 0; shuffleCode := [] |}.

(** Every request is answered 404. *)
Definition notFoundWorld : World :=
  quietWorld (fun _ => reply 404 "Not Found" None "").

Definition latestUrl : string :=
  "https://api.mangadex.org/manga?offset=0&limit=60&order%5BupdatedAt%5D=desc".

(** *** Sample entities *)

Definition coverArt (fileName : string) : Value :=
  Obj [("id", Str "c1"); ("type", Str "cover_art");
       ("attributes", Obj [("fileName", Str fileName)])].

Definition author : Value := Obj [("id", Str "a1"); ("type", Str "author")].

Definition sampleAttributes : Value :=
  Obj [("title", Obj [("ja-ro", Str "Foo")]);
       ("description", Obj [("en", Str "A story.")]);
       ("status", Str "ongoing");
       ("tags", Arr []);
       ("updatedAt", Str "2024-01-01T00:00:00+00:00")].

Definition sampleManga (id : string) (relationships : list Value) : Value :=
  Obj [("id", Str id); ("type", Str "manga");
       ("attributes", sampleAttributes);
       ("relationships", Arr relationships)].

(** A manga whose relationships hold two cover-art entries. *)
Definition twoCovers : Value :=
  sampleManga "m1" [author; coverArt "y.jpg"; coverArt "x.jpg"].

(** A manga with no cover-art relationship. *)
Definition coverless : Value := sampleManga "m1" [author].

Definition collection (data : list Value) : Value :=
  Obj [("result", Str "ok"); ("response", Str "collection");
       ("data", Arr data);
       ("limit", Num 100); ("offset", Num 0); ("total", Num (Z.of_nat (List.length data)))].

(** The API answers every listing with [data]; the image host answers
    every request with three bytes. *)
Definition servingWorld (data : list Value) : World :=
  quietWorld (fun url =>
    if String.prefix baseUrl url
    then reply 200 "OK" (Some (collection data)) ""
    else reply 200 "OK" None "Man").

(** The claim about cover URLs, as the specification words it: some
    relationship of [k] is a cover-art entry with this file name. *)
Definition hasCoverArt (k : Value) (fileName : string) : Prop :=
  exists items t,
    getOpt k "relationships" = Arr items
    /\ In t items
    /\ getOpt t "type" = Str "cover_art"
    /\ getOptPath t ["attributes"; "fileName"] = Str fileName.

Definition isCoverArt (t : Value) : bool := strictEqStr (getOpt t "type") "cover_art".

Definition thumbnail (mangaId fileName : string) : string :=
  "https://uploads.mangadex.org/covers/" ++ mangaId ++ "/" ++ fileName ++ ".256.jpg".

(** The URLs requested, in order. *)
Definition requests (events : list Event) : list string :=
  flat_map (fun ev => match ev with
                      | Requested url => [url]
                      | Logged _ _ => []
                      end) events.

(** The listing of [getLatestManga] is answered with [data]; every other
    request, the cover lookup included, is answered with the JSON text
    [null]. *)
Definition nullCoversWorld (data : list Value) : World :=
  quietWorld (fun url =>
    if String.eqb url latestUrl
    then reply 200 "OK" (Some (collection data)) ""
    else reply 200 "OK" (Some Null) "").

Definition rankedUrl (field : string) : string :=
  "https://api.mangadex.org/manga?limit=10&order%5B" ++ field ++ "%5D=desc".

(** A page of [n] manga, each with one cover. *)
Definition pageOf (n : nat) : list Value :=
  map (fun i => sampleManga ("m" ++ showZ (Z.of_nat i)) [author; coverArt "x.jpg"])
      (seq 1 n).

(** A world serving the page of twenty manga, with a random source that
    reorders it. *)
Definition shuffledWorld : World :=
  {| http := http (servingWorld (pageOf 20));
     settleOrder := [3; 1; 5];
     randomMantissa := 6004799503160661;
     randomExponent := 0;
     shuffleCode := [7; 31; 4; 12; 0; 9; 2] |}.

(** The rating query never completes; every other request is served. *)
Definition flakyWorld : World :=
  quietWorld (fun url =>
    if String.eqb url (rankedUrl "rating") then Unreachable
    else http (servingWorld (pageOf 2)) url).

(** Two of the three ranked queries fail, with different statuses. *)
Definition twoFailuresWorld (order : list nat) : World :=
  {| http := fun url =>
       if String.eqb url (rankedUrl "followedCount") then reply 500 "Server Error" None ""
       else if String.eqb url (rankedUrl "rating") then reply 404 "Not Found" None ""
       else http (servingWorld (pageOf 2)) url;
     settleOrder := order;
     randomMantissa := 0;
     randomExponent := 0;
     shuffleCode := [] |}.


(** ** Further notions the properties speak of *)

(** The characters the serializer can emit: the ones left as they are,
    [+] for a space, [%] of an escape, and the separators [=] and [&]. *)
Definition isQuerySafe (c : ascii) : bool :=
  let n := N_of_ascii c in
  Url.isAlnum c
  || (n =? 42)%N || (n =? 45)%N || (n =? 46)%N || (n =? 95)%N
  || (n =? 43)%N || (n =? 37)%N || (n =? 61)%N || (n =? 38)%N.

Fixpoint allChars (p : ascii -> bool) (s : string) : bool :=
  match s with
  | EmptyString => true
  | String c rest => p c && allChars p rest
  end.

(** The numbers of this development are integers; the ones an engine
    holds exactly and prints digit by digit are the safe integers, of
    magnitude at most 2^53 - 1. *)
Definition isSafeInteger (n : Z) : bool := (Z.abs n <=? 9007199254740991)%Z.

Fixpoint safeNumbers (v : Value) : bool :=
  match v with
  | Num n => isSafeInteger n
  | Arr items => forallb safeNumbers items
  | Obj props => forallb (fun kv => safeNumbers (snd kv)) props
  | _ => true
  end.

(** A parameter mapping all of whose numbers are safe integers. *)
Definition safeParameters (params : list (string * Value)) : bool :=
  forallb (fun p => safeNumbers (snd p)) params.

(** An endpoint the URL parser leaves as it is, as ["manga"], the one
    every call of the module passes: letters and digits only, so that
    it brings no query, fragment, dot segment or escape of its own. *)
Definition plainEndpoint (endpoint : string) : bool := allChars Url.isAlnum endpoint.

Definition hexValue (c : ascii) : option N :=
  let n := N_of_ascii c in
  if Url.between 48 57 n then Some (n - 48)%N
  else if Url.between 65 70 n then Some (n - 55)%N
  else if Url.between 97 102 n then Some (n - 87)%N
  else None.

(** What the receiving side reads back from one form-urlencoded name or
    value: [+] is a space, [%XY] is the byte with that code. *)
Fixpoint formDecode (s : string) : string :=
  match s with
  | EmptyString => ""
  | String c rest =>
      if (N_of_ascii c =? 43)%N then String " " (formDecode rest)
      else if (N_of_ascii c =? 37)%N then
        match rest with
        | String h (String l rest') =>
            match hexValue h, hexValue l with
            | Some a, Some b => String (ascii_of_N (16 * a + b)) (formDecode rest')
            | _, _ => String c (formDecode rest)
            end
        | _ => String c (formDecode rest)
        end
      else String c (formDecode rest)
  end.

Definition isBase64Char (c : ascii) : bool :=
  let n := N_of_ascii c in
  Url.isAlnum c || (n =? 43)%N || (n =? 47)%N || (n =? 61)%N.

Definition dataUriPrefix : string := "data:image/jpeg;base64,".

(** A world that differs from [w] only in the order in which the
    requests of a batch complete. *)
Definition withSettleOrder (w : World) (order : list nat) : World :=
  {| http := http w;
     settleOrder := order;
     randomMantissa := randomMantissa w;
     randomExponent := randomExponent w;
     shuffleCode := shuffleCode w |}.

(** The parameter object [fetchCovers] hands to [fetchJson]. *)
Definition coversParams (ids order offset limit : Value) : list (string * Value) :=
  [("ids", ids);
   ("order", order);
   ("includes", Arr [Str "cover_art"; Str "author"; Str "artist";
                     Str "tag"; Str "user"; Str "scanlation_group"]);
   ("offset", offset);
   ("limit", limit)].

(** The pairs every cover lookup ends with: the six kinds of
    relationship to include, then offset 0 and limit 100. *)
Definition coversTail : Url.SearchParams :=
  [("includes[]", "cover_art"); ("includes[]", "author"); ("includes[]", "artist");
   ("includes[]", "tag"); ("includes[]", "user"); ("includes[]", "scanlation_group");
   ("offset", "0"); ("limit", "100")].

(** A run of [getLatestManga] gets as far as the cover lookup, which
    answers with the entities [entities]. *)
Definition latestCovers (w : World) (entities : list Value) : Prop :=
  exists listing ids covers,
    outcome (await w (fetchLatestChapters 0 60)) = Fulfilled listing
    /\ listedIds listing = ok ids
    /\ outcome (await w (fetchCovers ids descendingByUpdate (Num 0) (Num 100)))
       = Fulfilled covers
    /\ getOpt covers "data" = Arr entities.

(** A run of [Carousel] gets as far as the cover lookup, which answers
    with the value [manga]. *)
Definition carouselCovers (w : World) (manga : Value) : Prop :=
  exists req mangaIds,
    outcome (await w (fetchJson "manga" (carouselParams (floorRandomTimes w 200))))
    = Fulfilled req
    /\ pageIds req = ok mangaIds
    /\ outcome (await w (fetchCovers mangaIds (Obj []) (Num 0) (Num 100)))
       = Fulfilled manga.

(** What [fetchTopListings] does with one ranking when all goes well:
    the ranking has a [data] array, the ids of its entries can be read,
    and the cover lookup for those ids answers with [lookup], a value
    whose [data] can be read. *)
Definition rankingLookup (w : World) (ranking lookup : Value) : Prop :=
  exists items ids,
    getOpt ranking "data" = Arr items
    /\ idsOf items = ok ids
    /\ outcome (await w (fetchCovers ids (Obj []) (Num 0) (Num 100))) = Fulfilled lookup
    /\ isNullish lookup = false.

(** The URL belongs to the API, not to the image host. *)
Definition isApiUrl (url : string) : Prop := String.prefix baseUrl url = true.

(** The listing of [Carousel] answers with a page of twenty manga, every
    other request to the API with three manga that are not on it. *)
Definition strayLookupWorld : World :=
  quietWorld (fun url =>
    if String.prefix (baseUrl ++ "manga?offset=") url
    then reply 200 "OK" (Some (collection (pageOf 20))) ""
    else if String.prefix baseUrl url
         then reply 200 "OK"
                    (Some (collection (map (fun id => sampleManga id [coverArt "x.jpg"])
                                           ["z1"; "z2"; "z3"]))) ""
         else reply 200 "OK" None "Man").

(** The API serves [data]; the image host answers 404 for the cover of
    the manga [missing] and serves every other image. *)
Definition missingImageWorld (data : list Value) (missing : string) : World :=
  quietWorld (fun url =>
    if String.prefix baseUrl url
    then reply 200 "OK" (Some (collection data)) ""
    else if String.prefix (coversHost ++ missing ++ "/") url
         then reply 404 "Not Found" None ""
         else reply 200 "OK" None "Man").

(** Every URL a run requests satisfies [P], and there are at most [n]
    requests in all. *)
Definition requestsWithin {A} (P : string -> Prop) (n : nat) (r : Run A) : Prop :=
  Forall P (requests (observed r)) /\ List.length (requests (observed r)) <= n.

(** ** The carousel component *)

(** The component [MangaCarousel] renders one card per item returned by
    [Carousel] and advances the strip on a timer.  Modelled here are the
    decisions it takes: where the timer scrolls to, which genres a card
    lists, and what each card reads from its item.  Lengths are whole
    CSS pixels. *)
Module Card.

(** The body of the interval callback: the [left] handed to
    [scrollTo]. *)
Definition advanceTarget (scrollLeft clientWidth scrollWidth : Z) : Z :=
  let nextScrollLeft := (scrollLeft + clientWidth)%Z in
  let maxScrollLeft := (scrollWidth - clientWidth)%Z in
  if (nextScrollLeft <? maxScrollLeft)%Z then nextScrollLeft else 0%Z.

(** [manga?.type]. *)
Definition badge (manga : Value) : Value := getOpt manga "type".

(** [manga?.attributes?.publicationDemographic]. *)
Definition demographic (manga : Value) : Value :=
  getOptPath manga ["attributes"; "publicationDemographic"].

(** [manga?.attributes?.contentRating]. *)
Definition rating (manga : Value) : Value :=
  getOptPath manga ["attributes"; "contentRating"].

(** [manga?.attributes?.field["en"]]: the chain stops at a nullish
    [attributes]; past it, the index is read without a guard. *)
Definition english (field : string) (manga : Value) : Completion Value :=
  match getOpt manga "attributes" with
  | Undefined | Null => ok Undefined
  | attributes => get (getOpt attributes field) "en"
  end.

(** [manga?.attributes?.title["en"]]. *)
Definition title (manga : Value) : Completion Value := english "title" manga.

(** [manga?.attributes?.description["en"]]. *)
Definition summary (manga : Value) : Completion Value := english "description" manga.

(** The callback of [tags?.map((tag, index) => ...)]: nothing for an
    index above 5, otherwise the English name and whether a comma
    follows it. *)
Definition genreLink (count index : nat) (tag : Value)
  : Completion (option (Value * bool)) :=
  let isLastTag := Nat.eqb index (count - 1) in
  if Nat.leb index 5
  then andThen (getPath tag ["attributes"; "name"; "en"])
               (fun name => ok (Some (name, negb isLastTag && negb (Nat.eqb index 5))))
  else ok None.

Fixpoint keepSome {A} (l : list (option A)) : list A :=
  match l with
  | [] => []
  | Some a :: rest => a :: keepSome rest
  | None :: rest => keepSome rest
  end.

(** [manga?.attributes?.tags?.map(...)]: [None] when the chain stops
    early, otherwise the links rendered. *)
Definition genres (manga : Value) : Completion (option (list (Value * bool))) :=
  match getOptPath manga ["attributes"; "tags"] with
  | Undefined | Null => ok None
  | Arr tags =>
      let count := List.length tags in
      andThen (sequence (map (fun it => genreLink count (fst it) (snd it))
                             (combine (seq 0 count) tags)))
              (fun links => ok (Some (keepSome links)))
  | _ => throw (TypeError "map is not a function")
  end.



(** [manga.cover], the [src] of both images of a card. *)
Definition cover (manga : Value) : Completion Value := get manga "cover".

(** [manga?.attributes?.status?.toUpperCase()]: kept is whether the
    call can be made, not the text it returns. *)
Definition status (manga : Value) : Completion unit :=
  match getOptPath manga ["attributes"; "status"] with
  | Undefined | Null | Str _ => ok tt
  | _ => throw (TypeError "toUpperCase is not a function")
  end.

(** What one card shows. *)
Record View : Type := {
  image : Value;
  type : Value;
  audience : Value;
  contentRating : Value;
  heading : Value;
  links : option (list (Value * bool));
  text : Value
}.

(** The body of the callback of [carouselItems?.map]: the expressions
    of one card, evaluated in the order they are written; the first
    one that throws ends the rendering of the whole strip.  What React
    and the image component do with the values is outside. *)
Definition render (manga : Value) : Completion View :=
  (image <- cover manga ;;
   heading <- title manga ;;
   links <- genres manga ;;
   text <- summary manga ;;
   _ <- status manga ;;
   ok {| image := image;
         type := badge manga;
         audience := demographic manga;
         contentRating := rating manga;
         heading := heading;
         links := links;
         text := text |})%completion.

End Card.


(** * Properties *)

(** ** Serializer *)

Example serialize_ids :
  serializeParameters [("ids", Arr [Str "a"; Str "b"])]
  = ok "ids%5B%5D=a&ids%5B%5D=b".
Proof. reflexivity. Qed.

Example serialize_order :
  serializeParameters [("order", Obj [("updatedAt", Str "desc")])]
  = ok "order%5BupdatedAt%5D=desc".
Proof. reflexivity. Qed.

Example serialize_index_keys_first :
  serializeParameters [("b", Str "x"); ("10", Str "y"); ("9", Num 7)]
  = ok "9=7&10=y&b=x".
Proof. reflexivity. Qed.

Example request_latest :
  requestUrl "manga" [("offset", Num 0); ("limit", Num 60);
                      ("order", Obj [("updatedAt", Str "desc")])]
  = ok "https://api.mangadex.org/manga?offset=0&limit=60&order%5BupdatedAt%5D=desc".
Proof. reflexivity. Qed.

Lemma entries_plain {V} (l : list (string * V)) :
  forallb plainKey l = true -> Keys.entries l = l.
Proof.
  unfold Keys.entries, plainKey. induction l as [| p l IH]; simpl; intros H.
  - reflexivity.
  - apply andb_prop in H as [Hp Hl].
    destruct (Keys.isIndex (fst p)); [discriminate|]. simpl.
    specialize (IH Hl).
    assert (Hnone : filter (fun p0 : string * V => Keys.isIndex (fst p0)) l = []).
    { clear IH. induction l as [| q l IHl]; simpl in *; [reflexivity|].
      apply andb_prop in Hl as [Hq Hl].
      destruct (Keys.isIndex (fst q)); [discriminate | auto]. }
    rewrite Hnone in *. simpl in *. now rewrite IH.
Qed.

Lemma toString_scalar (v : Value) :
  isScalar v = true -> toString v = ok (plainText v).
Proof. destruct v as [| | [|] | | | |]; simpl; intros H; try discriminate; reflexivity. Qed.

Lemma forEach_scalars {A} (name : A -> string) (value : A -> Value)
      (l : list A) (sp : Url.SearchParams) :
  forallb (fun a => isScalar (value a)) l = true ->
  forEach (fun acc a => appendValue (name a) acc (value a)) l sp
  = ok (sp ++ map (fun a => (name a, plainText (value a))) l)%list.
Proof.
  revert sp. induction l as [| a l IH]; simpl; intros sp H.
  - now rewrite app_nil_r.
  - apply andb_prop in H as [Ha Hl].
    unfold appendValue at 1. rewrite (toString_scalar _ Ha). simpl.
    rewrite IH by assumption. unfold Url.append. now rewrite <- app_assoc.
Qed.

Lemma serializeEntry_spec (sp : Url.SearchParams) (entry : string * Value) :
  queryValue (snd entry) = true ->
  serializeEntry sp entry = ok (sp ++ specPairs entry)%list.
Proof.
  destruct entry as [key value]. simpl. intros H.
  destruct value as [| | b | n | s | items | props]; simpl in *; try discriminate;
    try reflexivity.
  - destruct b; reflexivity.
  - exact (forEach_scalars (fun _ => key ++ "[]") (fun x => x) items sp H).
  - assert (Hkeys : forallb plainKey props = true).
    { rewrite forallb_forall in *. intros x Hx.
      apply H in Hx. now apply andb_prop in Hx as [? _]. }
    assert (Hvals : forallb (fun kv : string * Value => isScalar (snd kv)) props = true).
    { rewrite forallb_forall in *. intros x Hx.
      apply H in Hx. now apply andb_prop in Hx as [_ ?]. }
    rewrite (entries_plain _ Hkeys).
    exact (forEach_scalars (fun kv => key ++ "[" ++ fst kv ++ "]") snd props sp Hvals).
Qed.

Lemma forEach_serializeEntry (params : list (string * Value)) (sp : Url.SearchParams) :
  forallb (fun p => queryValue (snd p)) params = true ->
  forEach serializeEntry params sp = ok (sp ++ flat_map specPairs params)%list.
Proof.
  revert sp. induction params as [| p params IH]; simpl; intros sp H.
  - now rewrite app_nil_r.
  - apply andb_prop in H as [Hp Hl].
    rewrite (serializeEntry_spec sp p Hp). simpl.
    rewrite IH by assumption. now rewrite <- app_assoc.
Qed.

Lemma collectParameters_spec (params : list (string * Value)) :
  queryParam params = true ->
  collectParameters params = ok (flat_map specPairs params).
Proof.
  intros H. unfold collectParameters, queryParam in *.
  assert (Hkeys : forallb plainKey params = true).
  { rewrite forallb_forall in *. intros x Hx.
    apply H in Hx. now apply andb_prop in Hx as [? _]. }
  assert (Hvals : forallb (fun p : string * Value => queryValue (snd p)) params = true).
  { rewrite forallb_forall in *. intros x Hx.
    apply H in Hx. now apply andb_prop in Hx as [_ ?]. }
  rewrite (entries_plain _ Hkeys).
  now rewrite (forEach_serializeEntry params [] Hvals).
Qed.

(** C2, as stated, fails: [URLSearchParams] escapes the brackets, so
    the serialized text never holds the literal [ids[]=a&ids[]=b] or
    [order[updatedAt]=desc]. *)
Lemma brackets_are_escaped :
  (exists out,
      serializeParameters [("ids", Arr [Str "a"; Str "b"])] = ok out
      /\ contains "ids[]=a&ids[]=b" out = false)
  /\ (exists out,
         serializeParameters [("order", Obj [("updatedAt", Str "desc")])] = ok out
         /\ contains "order[updatedAt]=desc" out = false).
Proof.
  split; eexists; (split; [reflexivity | vm_compute; reflexivity]).
Qed.

(** C2, amended: for a mapping of scalars (strings, booleans and safe
    integers), arrays of scalars and flat objects whose keys are not
    array indices, the serializer appends the pairs the specification
    lists, entry by entry in insertion order (a scalar under its own key
    as its text), and renders them form-urlencoded; [{ids: ["a","b"]}]
    gives the pairs [ids[]=a] and [ids[]=b] in that order, rendered
    [ids%5B%5D=a&ids%5B%5D=b], and [{order: {updatedAt: "desc"}}] gives
    [order[updatedAt]=desc], rendered [order%5BupdatedAt%5D=desc]. *)
Theorem query_serialization (params : list (string * Value)) :
  queryParam params = true ->
  safeParameters params = true ->
  collectParameters params = ok (flat_map specPairs params)
  /\ serializeParameters params = ok (Url.render (flat_map specPairs params))
  /\ collectParameters [("ids", Arr [Str "a"; Str "b"])]
     = ok [("ids[]", "a"); ("ids[]", "b")]
  /\ serializeParameters [("ids", Arr [Str "a"; Str "b"])]
     = ok "ids%5B%5D=a&ids%5B%5D=b"
  /\ collectParameters [("order", Obj [("updatedAt", Str "desc")])]
     = ok [("order[updatedAt]", "desc")]
  /\ serializeParameters [("order", Obj [("updatedAt", Str "desc")])]
     = ok "order%5BupdatedAt%5D=desc".
Proof.
  intros H _. pose proof (collectParameters_spec params H) as Hc.
  split; [exact Hc|]. split.
  - unfold serializeParameters. now rewrite Hc.
  - repeat split; reflexivity.
Qed.

Lemma query_serialization_witness :
  let params := [("title", Str "one piece");
                 ("ids", Arr [Str "a"; Str "b"]);
                 ("order", Obj [("updatedAt", Str "desc")]);
                 ("limit", Num 10)] in
  queryParam params = true
  /\ safeParameters params = true
  /\ serializeParameters params
     = ok "title=one+piece&ids%5B%5D=a&ids%5B%5D=b&order%5BupdatedAt%5D=desc&limit=10".
Proof.
  intros params. split; [reflexivity|]. split; [reflexivity|].
  exact (proj1 (proj2 (query_serialization params eq_refl eq_refl))).
Defined.

(** C8: on the empty mapping the serializer returns the empty text
    without throwing, and [fetchJson] called with no parameters on a
    plain endpoint such as ["manga"] reaches its request, for the bare
    endpoint URL. *)
Theorem empty_mapping_serializes (endpoint : string) :
  plainEndpoint endpoint = true ->
  serializeParameters [] = ok ""
  /\ requestUrl endpoint [] = ok (baseUrl ++ endpoint)
  /\ exists resume, fetchJson endpoint [] = Fetch (baseUrl ++ endpoint) resume.
Proof.
  intros _. split; [reflexivity|]. split; [reflexivity|].
  unfold fetchJson. simpl. eexists. reflexivity.
Qed.

Lemma empty_mapping_witness :
  plainEndpoint "manga" = true
  /\ requestUrl "manga" [] = ok "https://api.mangadex.org/manga".
Proof.
  split; [reflexivity|].
  exact (proj1 (proj2 (@empty_mapping_serializes "manga" eq_refl))).
Defined.

(** The serialized text passes through the [search] setter unchanged. *)
Lemma formByte_inert (c : ascii) :
  Url.queryEncode (Url.formByte c) = Url.formByte c
  /\ Url.dropQuestionMark (Url.formByte c) = Url.formByte c.
Proof.
  destruct c as [[|] [|] [|] [|] [|] [|] [|] [|]]; split; reflexivity.
Qed.

Lemma queryEncode_app (a b : string) :
  Url.queryEncode (a ++ b) = Url.queryEncode a ++ Url.queryEncode b.
Proof.
  induction a as [| c a IH]; simpl; [reflexivity|].
  destruct (Url.isStripped c); [exact IH|].
  destruct (Url.queryEscaped c); simpl; now rewrite IH.
Qed.

Lemma formEncode_inert (s : string) :
  Url.queryEncode (Url.formEncode s) = Url.formEncode s.
Proof.
  induction s as [| c s IH]; simpl; [reflexivity|].
  rewrite queryEncode_app, IH. now rewrite (proj1 (formByte_inert c)).
Qed.

Lemma formPair_inert (p : string * string) :
  Url.queryEncode (Url.formPair p) = Url.formPair p.
Proof.
  unfold Url.formPair. now rewrite !queryEncode_app, !formEncode_inert.
Qed.

Lemma append_assoc (a b c : string) : (a ++ b) ++ c = a ++ b ++ c.
Proof. induction a as [| x a IH]; simpl; [reflexivity | now rewrite IH]. Qed.

Lemma append_empty (a : string) : a ++ "" = a.
Proof. induction a as [| x a IH]; simpl; [reflexivity | now rewrite IH]. Qed.

Lemma joinWith_cons (sep p q : string) (rest : list string) :
  joinWith sep (p :: q :: rest) = p ++ sep ++ joinWith sep (q :: rest).
Proof. reflexivity. Qed.

Lemma render_inert (sp : Url.SearchParams) :
  Url.queryEncode (Url.render sp) = Url.render sp.
Proof.
  unfold Url.render. induction sp as [| p sp IH]; [reflexivity|].
  destruct sp as [| q sp]; [apply formPair_inert|].
  cbn [map] in *. rewrite joinWith_cons.
  rewrite !queryEncode_app, formPair_inert, IH. reflexivity.
Qed.

Lemma dropQuestionMark_app (a b : string) :
  a <> "" -> Url.dropQuestionMark a = a ->
  Url.dropQuestionMark (a ++ b) = a ++ b.
Proof.
  destruct a as [| c a]; [congruence|]. intros _ H.
  destruct c as [[|] [|] [|] [|] [|] [|] [|] [|]]; try reflexivity.
  simpl in H. exfalso.
  apply (f_equal String.length) in H. simpl in H. lia.
Qed.

Lemma formPair_no_question (p : string * string) (rest : string) :
  Url.dropQuestionMark (Url.formPair p ++ rest) = Url.formPair p ++ rest.
Proof.
  unfold Url.formPair. destruct p as [name value]. cbn [fst snd].
  destruct name as [| c name].
  - reflexivity.
  - cbn [Url.formEncode]. rewrite !append_assoc.
    apply dropQuestionMark_app; [| apply (proj2 (formByte_inert c))].
    destruct c as [[|] [|] [|] [|] [|] [|] [|] [|]]; discriminate.
Qed.

Lemma render_no_question (sp : Url.SearchParams) :
  Url.dropQuestionMark (Url.render sp) = Url.render sp.
Proof.
  unfold Url.render. destruct sp as [| p sp]; [reflexivity|].
  destruct sp as [| q sp].
  - cbn [map joinWith]. rewrite <- (append_empty (Url.formPair p)).
    apply formPair_no_question.
  - cbn [map]. rewrite joinWith_cons. apply formPair_no_question.
Qed.

(** The URL [fetchJson] requests is the endpoint under the base URL,
    followed by [?] and the serialized parameters when there are any. *)
Lemma requestUrl_shape (endpoint : string) (params : list (string * Value)) (s : string) :
  serializeParameters params = ok s ->
  requestUrl endpoint params
  = ok (match s with
        | EmptyString => baseUrl ++ endpoint
        | _ => (baseUrl ++ endpoint) ++ "?" ++ s
        end).
Proof.
  unfold requestUrl, serializeParameters.
  destruct (collectParameters params) as [e | sp]; simpl; intros H; [discriminate|].
  inversion H; subst s. unfold Url.withSearch.
  destruct (Url.render sp) eqn:E; [reflexivity|].
  rewrite <- E, render_no_question, render_inert. reflexivity.
Qed.

(** ** Runs *)

Lemma fetchJson_starts (endpoint : string) (params : list (string * Value)) (url : string) :
  requestUrl endpoint params = ok url ->
  exists resume, fetchJson endpoint params = Fetch url resume.
Proof.
  intros H. unfold fetchJson. rewrite H. simpl. eexists. reflexivity.
Qed.

Lemma thenRun_trace {A B} (r : Run A) (f : A -> Run B) :
  exists rest, trace (thenRun r f) = (trace r ++ rest)%list.
Proof.
  unfold thenRun. destruct (outcome r); simpl.
  - eexists. reflexivity.
  - exists []. now rewrite app_nil_r.
Qed.

Lemma catchRun_trace {A} (r : Run A) (handler : Error -> Run A) :
  exists rest, trace (catchRun r handler) = (trace r ++ rest)%list.
Proof.
  unfold catchRun. destruct (outcome r); simpl.
  - exists []. now rewrite app_nil_r.
  - eexists. reflexivity.
Qed.

(** ** Carousel offset *)

Lemma round53_times200 (m : Z) :
  (0 <= m < 2 ^ 53 -> 0 <= round53 (m * 200) < 200 * 2 ^ 53)%Z.
Proof.
  intros Hm. unfold round53.
  set (n := (m * 200)%Z).
  assert (Hn : (0 <= n <= 200 * 2 ^ 53 - 200)%Z) by (unfold n; lia).
  destruct (Z.leb_spec (Z.log2 n + 1 - 53) 0) as [Hsmall | Hbig]; [lia|].
  set (x := (Z.log2 n + 1 - 53)%Z) in *.
  assert (Hpos : (0 < n)%Z).
  { destruct (Z.lt_trichotomy 0 n) as [H | [H | H]]; [exact H | |].
    - subst x. rewrite <- H in Hbig. simpl in Hbig. lia.
    - subst x. rewrite (Z.log2_nonpos n) in Hbig by lia. lia. }
  assert (Hlog : (Z.log2 n < 61)%Z) by (apply Z.log2_lt_pow2; lia).
  pose proof (Z.log2_spec n Hpos) as [_ Hup].
  assert (Hx : (1 <= x <= 8)%Z) by (unfold x; lia).
  assert (HP : (0 < 2 ^ x)%Z) by (apply Z.pow_pos_nonneg; lia).
  pose proof (Z.mul_div_le n (2 ^ x) HP) as Hq.
  pose proof (Z.div_pos n (2 ^ x) ltac:(lia) HP) as Hq0.
  destruct (Z.eq_dec x 8) as [E | NE].
  - rewrite E in *. change (2 ^ 8)%Z with 256%Z in *.
    change (2 ^ (8 - 1))%Z with 128%Z.
    pose proof (Z.div_mod n 256 ltac:(lia)) as Hdm.
    pose proof (Z.mod_pos_bound n 256 ltac:(lia)) as Hr.
    destruct (Z.ltb_spec 128 (n mod 256)); destruct (Z.eqb_spec (n mod 256) 128);
      destruct (Z.odd (n / 256)); simpl; lia.
  - assert (Hn60 : (n < 2 ^ 60)%Z).
    { eapply Z.lt_le_trans; [exact Hup|]. apply Z.pow_le_mono_r; unfold x in *; lia. }
    assert (HP7 : (2 ^ x <= 2 ^ 7)%Z) by (apply Z.pow_le_mono_r; lia).
    destruct (_ || _); lia.
Qed.

Lemma floorRandomTimes_200 (w : World) :
  (0 <= floorRandomTimes w 200 <= 199)%Z.
Proof.
  unfold floorRandomTimes, randomNumerator, randomScale.
  set (m := (randomMantissa w mod 2 ^ 53)%Z).
  set (e := (randomExponent w mod 1022)%Z).
  assert (Hm : (0 <= m < 2 ^ 53)%Z) by (apply Z.mod_pos_bound; lia).
  assert (He : (0 <= e < 1022)%Z) by (apply Z.mod_pos_bound; lia).
  pose proof (round53_times200 Hm) as Hr.
  assert (Hpow : (2 ^ 53 <= 2 ^ (53 + e))%Z) by (apply Z.pow_le_mono_r; lia).
  split.
  - apply Z.div_pos; lia.
  - assert (round53 (m * 200) / 2 ^ (53 + e) < 200)%Z; [|lia].
    apply Z.div_lt_upper_bound; lia.
Qed.

Lemma carousel_request_url (n : Z) :
  exists url, requestUrl "manga" (carouselParams n) = ok url.
Proof.
  unfold requestUrl.
  unfold serializeParameters.
  rewrite (collectParameters_spec (carouselParams n) eq_refl).
  simpl. eexists. reflexivity.
Qed.

(** C10: the offset [Carousel] passes to its listing request is an
    integer between 0 and 199, whatever binary64 number in [0, 1) the
    random source returns, so the window of 20 entries ends within the
    first 219 ranks; the first thing a run does is request the listing
    with that offset. *)
Theorem carousel_offset_range (w : World) :
  let randomOffset := floorRandomTimes w 200 in
  (0 <= randomOffset <= 199)%Z
  /\ (randomOffset + 20 <= 219)%Z
  /\ lookup "offset" (carouselParams randomOffset) = Some (Num randomOffset)
  /\ lookup "limit" (carouselParams randomOffset) = Some (Num 20)
  /\ exists url rest,
       requestUrl "manga" (carouselParams randomOffset) = ok url
       /\ observed (Carousel w) = Requested url :: rest.
Proof.
  intros n. pose proof (floorRandomTimes_200 w) as Hn. fold n in Hn.
  split; [exact Hn|]. split; [lia|]. split; [reflexivity|]. split; [reflexivity|].
  destruct (carousel_request_url n) as [url Hurl].
  destruct (fetchJson_starts _ _ Hurl) as [resume Hfetch].
  exists url. unfold observed, Carousel, logAndRethrow. fold n.
  match goal with
  | |- context [catchRun ?r ?h] =>
      destruct (catchRun_trace r h) as [rest1 H1]; rewrite H1
  end.
  match goal with
  | |- context [thenRun ?r ?f] =>
      destruct (thenRun_trace r f) as [rest2 H2]; rewrite H2
  end.
  rewrite Hfetch. simpl. eexists. split; [exact Hurl | reflexivity].
Qed.

(** ** Batches *)

Lemma await_late {A} (w : World) (m : Async A) : late (await w m) = [].
Proof. induction m as [a | e | label e next IH | url resume IH]; simpl; auto. Qed.

Lemma start_then_finish {A} (w : World) (m : Async A) :
  outcome (await w m) = outcome (finish w (snd (start m)))
  /\ trace (await w m) = (fst (start m) ++ trace (finish w (snd (start m))))%list.
Proof.
  induction m as [a | e | label e next IH | url resume IH]; simpl; auto.
  destruct (start next) as [evs t]. simpl in *. destruct IH as [IHo IHt].
  split; [exact IHo | now rewrite IHt].
Qed.

Lemma settleInOrder_none {A} (order : list nat) (runs : list (Run A)) before after :
  settleInOrder order runs = (None, before, after) ->
  forall i r, In i order -> nth_error runs i = Some r ->
              exists v, outcome r = Fulfilled v.
Proof.
  revert before after. induction order as [| j rest IH]; simpl; intros before after H i r Hi Hr.
  - contradiction.
  - destruct (nth_error runs j) as [rj |] eqn:Ej.
    + destruct (outcome rj) as [v | e] eqn:Eo; [| discriminate].
      destruct (settleInOrder rest runs) as [[rej b] a] eqn:Es.
      inversion H; subst. destruct Hi as [-> | Hi].
      * rewrite Ej in Hr. inversion Hr; subst. eauto.
      * eapply IH; eauto.
    + destruct Hi as [-> | Hi]; [congruence|]. eapply IH; eauto.
Qed.

Lemma settleInOrder_some {A} (order : list nat) (runs : list (Run A)) e before after :
  settleInOrder order runs = (Some e, before, after) ->
  exists i r, In i order /\ nth_error runs i = Some r
              /\ outcome r = Rejected e /\ incl (trace r) before.
Proof.
  revert before after. induction order as [| j rest IH]; simpl; intros before after H.
  - discriminate.
  - destruct (nth_error runs j) as [rj |] eqn:Ej.
    + destruct (outcome rj) as [v | e'] eqn:Eo.
      * destruct (settleInOrder rest runs) as [[rej b] a] eqn:Es.
        inversion H; subst.
        destruct (IH _ _ eq_refl) as (i & r & Hi & Hr & Ho & Hincl).
        exists i, r. repeat split; auto. now apply incl_appr.
      * inversion H; subst. exists j, rj. repeat split; auto. apply incl_refl.
    + destruct (IH _ _ H) as (i & r & Hi & Hr & Ho & Hincl).
      exists i, r. repeat split; auto.
Qed.

Lemma settleSequence_covers (sched : list nat) (n i : nat) :
  i < n -> In i (settleSequence sched n).
Proof.
  intros H. unfold settleSequence, firstOccurrences.
  apply in_rev. rewrite rev_involutive. apply nodup_In. apply in_rev.
  rewrite rev_involutive. apply in_or_app. right. apply in_seq. lia.
Qed.

Lemma nodup_absorb (a b : list nat) :
  incl a b -> nodup Nat.eq_dec (a ++ b) = nodup Nat.eq_dec b.
Proof.
  induction a as [| x a IH]; simpl; intros H; [reflexivity|].
  destruct (in_dec Nat.eq_dec x (a ++ b)) as [_ | Hout].
  - apply IH. intros y Hy. apply H. now right.
  - exfalso. apply Hout, in_or_app. right. apply H. now left.
Qed.

(** Every order of completion can be named by the environment. *)
Lemma settleSequence_any (p : list nat) (n : nat) :
  Permutation p (seq 0 n) -> settleSequence p n = p.
Proof.
  intros Hp. unfold settleSequence, firstOccurrences.
  assert (Hall : forall i, In i p -> i < n).
  { intros i Hi. apply (Permutation_in _ Hp), in_seq in Hi. lia. }
  assert (Hfilter : filter (fun i => Nat.ltb i n) p = p).
  { clear Hp. induction p as [| x p IH]; simpl; [reflexivity|].
    assert (Hx : Nat.ltb x n = true) by (apply Nat.ltb_lt, Hall; now left).
    rewrite Hx, IH; [reflexivity|]. intros i Hi. apply Hall. now right. }
  rewrite Hfilter, rev_app_distr, nodup_absorb.
  - rewrite nodup_fixed_point, rev_involutive; [reflexivity|].
    apply NoDup_rev. apply (Permutation_NoDup (Permutation_sym Hp)), seq_NoDup.
  - intros i Hi. apply in_rev. rewrite rev_involutive.
    apply -> in_rev in Hi. rewrite rev_involutive in Hi.
    apply (Permutation_in _ (Permutation_sym Hp)). exact Hi.
Qed.

Lemma valuesOf_fulfilled {A} (runs : list (Run A)) :
  (forall r, In r runs -> exists v, outcome r = Fulfilled v) ->
  Forall2 (fun r v => outcome r = Fulfilled v) runs (valuesOf runs).
Proof.
  unfold valuesOf. induction runs as [| r runs IH]; simpl; intros H.
  - constructor.
  - destruct (H r (or_introl eq_refl)) as [v Hv]. rewrite Hv. simpl.
    constructor; [exact Hv | apply IH; intros r' Hr'; apply H; now right].
Qed.

(** The order a batch is walked in mentions every task. *)
Lemma batch_order_covers {A} (states : list (Task A)) (sched : list nat) (i : nat) :
  i < List.length states ->
  let pendingAt j := match nth_error states j with
                     | Some t => isPending t
                     | None => false
                     end in
  In i (filter (fun j => negb (pendingAt j)) (seq 0 (List.length states))
        ++ filter pendingAt (settleSequence sched (List.length states)))%list.
Proof.
  intros Hi pendingAt. apply in_or_app.
  destruct (pendingAt i) eqn:E.
  - right. apply filter_In. split; [now apply settleSequence_covers | exact E].
  - left. apply filter_In. split; [apply in_seq; lia | now rewrite E].
Qed.

Section Batch.

Context {A : Type} (w : World) (tasks : list (Async A)).

Lemma batch_run_outcome (i : nat) (task : Async A) :
  nth_error tasks i = Some task ->
  exists r, nth_error (batchRuns w tasks) i = Some r /\ outcome r = outcome (await w task)
            /\ trace (await w task) = (fst (start task) ++ trace r)%list.
Proof.
  intros H. unfold batchRuns. exists (finish w (snd (start task))).
  repeat rewrite nth_error_map. rewrite H. simpl.
  destruct (start_then_finish w task) as [Ho Ht]. auto.
Qed.

Lemma batch_run_task (i : nat) (r : Run A) :
  nth_error (batchRuns w tasks) i = Some r ->
  exists task, nth_error tasks i = Some task /\ outcome r = outcome (await w task)
               /\ trace (await w task) = (fst (start task) ++ trace r)%list.
Proof.
  unfold batchRuns. repeat rewrite nth_error_map.
  destruct (nth_error tasks i) as [task |] eqn:E; simpl; intros H; [| discriminate].
  inversion H; subst. exists task.
  destruct (start_then_finish w task) as [Ho Ht]. auto.
Qed.

(** A batch that rejects does so with the rejection of one of its
    tasks, whose events are all part of the trace. *)
Lemma awaitAll_rejected (e : Error) :
  outcome (awaitAll w tasks) = Rejected e ->
  exists task, In task tasks /\ outcome (await w task) = Rejected e
               /\ incl (trace (await w task)) (trace (awaitAll w tasks)).
Proof.
  unfold awaitAll.
  destruct (settleInOrder _ (batchRuns w tasks)) as [[[e' |] before] after] eqn:Es;
    simpl; intros H; [| discriminate].
  inversion H; subst e'.
  destruct (settleInOrder_some _ _ Es) as (i & r & _ & Hr & Ho & Hincl).
  destruct (batch_run_task i Hr) as (task & Ht & Hout & Htrace).
  exists task. split; [eapply nth_error_In; eauto|]. split; [congruence|].
  rewrite Htrace. apply incl_app.
  - apply incl_appl. intros ev Hev. apply in_flat_map.
    exists (start task). split; [| exact Hev].
    apply in_map. eapply nth_error_In; eauto.
  - now apply incl_appr.
Qed.

(** A batch with a failing task rejects. *)
Lemma awaitAll_fails (task : Async A) (e : Error) :
  In task tasks -> outcome (await w task) = Rejected e ->
  exists e', outcome (awaitAll w tasks) = Rejected e'.
Proof.
  intros Hin Ho. unfold awaitAll.
  destruct (settleInOrder _ (batchRuns w tasks)) as [[[e' |] before] after] eqn:Es;
    simpl; [eauto|].
  exfalso. apply In_nth_error in Hin as [i Hi].
  destruct (batch_run_outcome i Hi) as (r & Hr & Hout & _).
  assert (Hlt : i < List.length (map snd (map start tasks))).
  { repeat rewrite length_map. apply nth_error_Some. congruence. }
  pose proof (batch_order_covers (map snd (map start tasks)) (settleOrder w) Hlt) as Hcov.
  simpl in Hcov. repeat rewrite length_map in Hcov.
  destruct (settleInOrder_none _ _ Es i Hcov Hr) as [v Hv]. congruence.
Qed.

(** A batch that fulfils holds the value of every task, in list order. *)
Lemma awaitAll_fulfilled (vs : list A) :
  outcome (awaitAll w tasks) = Fulfilled vs ->
  Forall2 (fun task v => outcome (await w task) = Fulfilled v) tasks vs.
Proof.
  unfold awaitAll.
  destruct (settleInOrder _ (batchRuns w tasks)) as [[[e' |] before] after] eqn:Es;
    simpl; intros H; [discriminate|].
  inversion H; subst vs.
  assert (Hall : forall r, In r (batchRuns w tasks) -> exists v, outcome r = Fulfilled v).
  { intros r Hin. apply In_nth_error in Hin as [i Hi].
    assert (Hlt : i < List.length (map snd (map start tasks))).
    { unfold batchRuns in Hi. rewrite <- (length_map (finish w)).
      apply nth_error_Some. congruence. }
    pose proof (batch_order_covers (map snd (map start tasks)) (settleOrder w) Hlt) as Hcov.
    simpl in Hcov. repeat rewrite length_map in Hcov.
    exact (settleInOrder_none _ _ Es i Hcov Hi). }
  pose proof (valuesOf_fulfilled (batchRuns w tasks) Hall) as HF.
  clear - HF. unfold batchRuns in *. revert HF.
  generalize (valuesOf (map (finish w) (map snd (map start tasks)))).
  induction tasks as [| t ts IH]; simpl; intros vs HF; inversion HF; subst; constructor.
  - destruct (start_then_finish w t) as [Ho _]. congruence.
  - apply IH. assumption.
Qed.

End Batch.

(** ** Failure of the listing request *)

Lemma fetchJson_run (w : World) (endpoint : string) (params : list (string * Value))
      (url : string) :
  requestUrl endpoint params = ok url ->
  await w (fetchJson endpoint params)
  = match http w url with
    | Unreachable =>
        {| outcome := Rejected (TypeError "fetch failed");
           trace := [Requested url; Logged "Fetch error:" (TypeError "fetch failed")];
           late := [] |}
    | Responded res =>
        if isOk res then
          match json res with
          | Some v => {| outcome := Fulfilled v; trace := [Requested url]; late := [] |}
          | None =>
              {| outcome := Rejected (SyntaxError "Unexpected token in JSON");
                 trace := [Requested url;
                           Logged "Fetch error:" (SyntaxError "Unexpected token in JSON")];
                 late := [] |}
          end
        else
          {| outcome := Rejected (httpError res);
             trace := [Requested url; Logged "Fetch error:" (httpError res)];
             late := [] |}
    end.
Proof.
  intros H. unfold fetchJson. rewrite H. simpl.
  destruct (http w url) as [| res]; simpl; [reflexivity|].
  destruct (isOk res); simpl; [| reflexivity].
  unfold readJson. destruct (json res); reflexivity.
Qed.






Lemma ranked_urls :
  urlsOf [rankedParams "followedCount"; rankedParams "rating"; rankedParams "readingProgress"]
  = ["https://api.mangadex.org/manga?limit=10&order%5BfollowedCount%5D=desc";
     "https://api.mangadex.org/manga?limit=10&order%5Brating%5D=desc";
     "https://api.mangadex.org/manga?limit=10&order%5BreadingProgress%5D=desc"].
Proof. reflexivity. Qed.

(** Each query of the top-listings batch requests one of the three
    ranked URLs. *)
Lemma ranked_query_url (w : World) (task : Async Value) :
  In task topListingQueries ->
  exists params url, task = fetchJson "manga" params
                     /\ requestUrl "manga" params = ok url
                     /\ In url (primaryUrls w TopListings).
Proof.
  unfold topListingQueries, primaryUrls. simpl primaryParams. rewrite ranked_urls.
  intros [<- | [<- | [<- | []]]]; eexists; eexists;
    (split; [reflexivity | split; [reflexivity | simpl; tauto]]).
Qed.




(** ** Cover lookup *)

Lemma getOpt_nonnullish (v : Value) (name : string) :
  getOpt v name <> Undefined -> exists props, v = Obj props.
Proof. destruct v; simpl; intros H; try congruence. eauto. Qed.

Lemma get_object (props : list (string * Value)) (name : string) :
  get (Obj props) name = ok (getOpt (Obj props) name).
Proof. simpl. destruct (lookup name props); reflexivity. Qed.

Lemma get_nonnullish (v : Value) (name : string) :
  isNullish v = false -> get v name = ok (getOpt v name).
Proof. destruct v; simpl; intros H; try discriminate; try reflexivity.
       destruct (lookup name props); reflexivity. Qed.

Lemma find_first {A} (pred : A -> bool) (before : list A) (t : A) (after : list A) :
  Forall (fun u => pred u = false) before -> pred t = true ->
  find pred (before ++ t :: after) = Some t.
Proof.
  induction 1 as [| u before Hu _ IH]; simpl; intros Ht.
  - now rewrite Ht.
  - rewrite Hu. auto.
Qed.

Lemma findCoverArt_first (before : list Value) (t : Value) (after : list Value) :
  Forall (fun u => isCoverArt u = false) before ->
  Forall (fun u => isNullish u = false) before ->
  isCoverArt t = true ->
  findCoverArt (before ++ t :: after) = ok t.
Proof.
  unfold isCoverArt. intros Hb Hn Ht. induction before as [| u before IH]; simpl.
  - destruct (getOpt_nonnullish t "type") as [props ->].
    { destruct (getOpt t "type"); simpl in Ht; congruence. }
    rewrite get_object. simpl. simpl in Ht. now rewrite Ht.
  - inversion Hb; subst. inversion Hn; subst.
    rewrite get_nonnullish by assumption. simpl.
    match goal with H : strictEqStr _ _ = false |- _ => rewrite H end. auto.
Qed.

(** C3, as stated, fails: [find] stops at the first cover-art entry, so
    a later entry named [x.jpg] does not decide the URL. *)
Lemma later_cover_is_ignored :
  hasCoverArt twoCovers "x.jpg"
  /\ getOpt twoCovers "id" = Str "m1"
  /\ coverUrl twoCovers = ok "https://uploads.mangadex.org/covers/m1/y.jpg.256.jpg"
  /\ carouselCoverUrl twoCovers = ok "https://uploads.mangadex.org/covers/m1/y.jpg.256.jpg"
  /\ coverUrl twoCovers <> ok (thumbnail "m1" "x.jpg").
Proof.
  split.
  - exists [author; coverArt "y.jpg"; coverArt "x.jpg"], (coverArt "x.jpg").
    repeat split; try reflexivity. simpl. tauto.
  - repeat split; try reflexivity. discriminate.
Qed.

(** C3, amended: for a manga entity with a text id whose first
    relationship of type [cover_art] carries the file name [fileName]
    (for one [x.jpg]), the image URL built by [getLatestManga] and
    [searchManga] is the covers path of the image host followed by the
    manga id, the file name and [.256.jpg]; [Carousel] builds the same
    URL when no relationship listed before that entry is [null]. *)
Theorem cover_url_of_first_cover_art (k : Value) (mangaId fileName : string)
        (before : list Value) (t : Value) (after : list Value) :
  getOpt k "id" = Str mangaId ->
  getOpt k "relationships" = Arr (before ++ t :: after) ->
  Forall (fun u => isCoverArt u = false) before ->
  isCoverArt t = true ->
  getOptPath t ["attributes"; "fileName"] = Str fileName ->
  coverUrl k = ok (thumbnail mangaId fileName)
  /\ (Forall (fun u => isNullish u = false) before ->
      carouselCoverUrl k = ok (thumbnail mangaId fileName)).
Proof.
  intros Hid Hrel Hbefore Ht Hfile.
  unfold getOptPath in Hfile. simpl in Hfile. split.
  - unfold coverUrl, coverFileName, findValue, getOptPath. rewrite Hid, Hrel.
    unfold isCoverArt in *.
    rewrite (@find_first _ _ before t after Hbefore Ht).
    simpl. rewrite Hfile. reflexivity.
  - intros Hnull. unfold carouselCoverUrl, getPath.
    destruct (getOpt_nonnullish k "id") as [props ->]; [congruence|].
    rewrite !get_object, Hid, Hrel. simpl.
    rewrite (@findCoverArt_first before t after Hbefore Hnull Ht). simpl.
    destruct (getOpt_nonnullish (getOpt t "attributes") "fileName") as [aprops Ha];
      [congruence|].
    destruct (getOpt_nonnullish t "attributes") as [tprops Htt]; [congruence|].
    rewrite Htt in *. rewrite get_object, Ha. cbn [andThen ok].
    rewrite get_object. rewrite Ha in Hfile. rewrite Hfile. reflexivity.
Qed.

Lemma cover_url_witness :
  coverUrl (sampleManga "m1" [author; coverArt "x.jpg"; coverArt "y.jpg"])
  = ok "https://uploads.mangadex.org/covers/m1/x.jpg.256.jpg"
  /\ carouselCoverUrl (sampleManga "m1" [author; coverArt "x.jpg"; coverArt "y.jpg"])
     = ok "https://uploads.mangadex.org/covers/m1/x.jpg.256.jpg".
Proof.
  assert (Hbefore : Forall (fun u => isCoverArt u = false) [author])
    by (constructor; [reflexivity | constructor]).
  assert (Hnull : Forall (fun u => isNullish u = false) [author])
    by (constructor; [reflexivity | constructor]).
  destruct (@cover_url_of_first_cover_art
              (sampleManga "m1" [author; coverArt "x.jpg"; coverArt "y.jpg"])
              "m1" "x.jpg" [author] (coverArt "x.jpg") [coverArt "y.jpg"]
              eq_refl eq_refl Hbefore eq_refl eq_refl) as [H1 H2].
  split; [exact H1 | exact (H2 Hnull)].
Defined.

Lemma find_none {A} (pred : A -> bool) (l : list A) :
  Forall (fun u => pred u = false) l -> find pred l = None.
Proof.
  induction 1 as [| u l Hu _ IH]; simpl; [reflexivity|]. now rewrite Hu.
Qed.

Lemma findCoverArt_none (items : list Value) :
  Forall (fun u => isCoverArt u = false) items ->
  Forall (fun u => isNullish u = false) items ->
  findCoverArt items = ok Undefined.
Proof.
  induction 1 as [| u l Hu _ IH]; simpl; intros Hnull; [reflexivity|].
  inversion Hnull; subst. rewrite get_nonnullish by assumption.
  cbn [andThen ok]. unfold isCoverArt in Hu. rewrite Hu. auto.
Qed.

(** In [getLatestManga] and [searchManga] a manga without a cover-art
    relationship yields [undefined] for the file name, and the URL is
    still built. *)
Lemma cover_lookup_tolerates_absence (k : Value) (mangaId : string) (items : list Value) :
  getOpt k "id" = Str mangaId ->
  getOpt k "relationships" = Arr items ->
  Forall (fun u => isCoverArt u = false) items ->
  coverFileName k = ok Undefined
  /\ coverUrl k = ok (thumbnail mangaId "undefined").
Proof.
  intros Hid Hrel Hnone.
  pose proof (find_none isCoverArt Hnone) as Hfind. unfold isCoverArt in Hfind.
  assert (Hname : coverFileName k = ok Undefined).
  { unfold coverFileName, findValue. rewrite Hrel, Hfind. reflexivity. }
  split; [exact Hname|].
  unfold coverUrl. rewrite Hid, Hname. reflexivity.
Qed.

(** In [Carousel] the same manga makes the lookup throw: [find] yields
    [undefined] and [attributes] is read from it without a guard. *)
Lemma carousel_cover_lookup_throws (manga : Value) (mangaId : string) (items : list Value) :
  getOpt manga "id" = Str mangaId ->
  getOpt manga "relationships" = Arr items ->
  Forall (fun u => isCoverArt u = false) items ->
  Forall (fun u => isNullish u = false) items ->
  carouselCoverUrl manga
  = throw (TypeError "Cannot read properties of nullish value (reading 'attributes')").
Proof.
  intros Hid Hrel Hnone Hnull.
  pose proof (findCoverArt_none Hnone Hnull) as Hfind.
  unfold carouselCoverUrl.
  destruct (getOpt_nonnullish manga "id") as [props ->]; [congruence|].
  rewrite !get_object, Hid, Hrel. simpl. rewrite Hfind. reflexivity.
Qed.

(** C4 fails in [Carousel]: on a page holding a manga without a
    cover-art relationship, [getLatestManga] builds the URL from
    [undefined] and fulfils, while [Carousel] rejects with the
    [TypeError] raised by the unguarded lookup, before any image is
    requested. *)
Theorem carousel_rejects_without_cover_art :
  let w := servingWorld [coverless] in
  coverFileName coverless = ok Undefined
  /\ coverUrl coverless = ok "https://uploads.mangadex.org/covers/m1/undefined.256.jpg"
  /\ (exists vm, outcome (getLatestManga w) = Fulfilled (Arr [vm]))
  /\ outcome (Carousel w)
     = Rejected (TypeError "Cannot read properties of nullish value (reading 'attributes')")
  /\ forall url, In (Requested url) (observed (Carousel w)) ->
                 String.prefix baseUrl url = true.
Proof.
  intros w. split; [reflexivity|]. split; [reflexivity|].
  split; [eexists; vm_compute; reflexivity|].
  split; [vm_compute; reflexivity|].
  intros url Hin. vm_compute in Hin.
  repeat (destruct Hin as [Hin | Hin]; [inversion Hin; subst; reflexivity || discriminate|]).
  contradiction.
Qed.

(** ** Titles *)

Lemma await_bind_outcome {A B} (w : World) (m : Async A) (f : A -> Async B) :
  outcome (await w (bind m f))
  = match outcome (await w m) with
    | Fulfilled a => outcome (await w (f a))
    | Rejected e => Rejected e
    end.
Proof. induction m as [a | e | label e next IH | url resume IH]; simpl; auto. Qed.

Lemma await_lift_outcome {A} (w : World) (c : Completion A) :
  outcome (await w (lift c))
  = match c with
    | inl e => Rejected e
    | inr a => Fulfilled a
    end.
Proof. destruct c; reflexivity. Qed.

(** Peels one [x <- lift c ;; ...] off a fulfilled run. *)
Ltac peel_lift H :=
  rewrite await_bind_outcome, await_lift_outcome in H;
  match type of H with
  | context [match ?c with inl _ => _ | inr _ => _ end] =>
      let x := fresh "x" in
      let E := fresh "E" in
      destruct c as [? | x] eqn:E; [discriminate|]
  end.

Ltac peel_await H :=
  rewrite await_bind_outcome in H;
  match type of H with
  | context [match outcome ?r with Fulfilled _ => _ | Rejected _ => _ end] =>
      let x := fresh "x" in
      let E := fresh "E" in
      destruct (outcome r) as [x | ?] eqn:E; [| discriminate]
  end.

(** What a fulfilled [listItem] holds. *)
Lemma listItem_fulfilled (w : World) (k vm : Value) :
  outcome (await w (listItem k)) = Fulfilled vm ->
  exists image cover,
    coverUrl k = ok image
    /\ outcome (await w (fetchCover image)) = Fulfilled cover
    /\ vm = Obj [("id", getOpt k "id");
                 ("updatedAt", getOptPath k ["attributes"; "updatedAt"]);
                 ("cover", Str cover);
                 ("title", titleOf k)].
Proof.
  unfold listItem. intros H.
  peel_lift H. peel_await H. simpl in H. inversion H; subst. eauto.
Qed.

(** What a fulfilled [carouselItem] holds. *)
Lemma carouselItem_fulfilled (w : World) (manga vm : Value) :
  outcome (await w (carouselItem manga)) = Fulfilled vm ->
  exists tags image cover title rating demographic status description,
    carouselCoverUrl manga = ok image
    /\ outcome (await w (fetchCover image)) = Fulfilled cover
    /\ carouselTitle manga = ok title
    /\ isNullish manga = false
    /\ vm = Obj [("id", getOpt manga "id");
                 ("tags", tags);
                 ("cover", Str cover);
                 ("title", title);
                 ("contentRating", rating);
                 ("publicationDemographic", demographic);
                 ("status", status);
                 ("description", description);
                 ("type", getOpt manga "type")].
Proof.
  unfold carouselItem. intros H.
  peel_lift H. peel_lift H. peel_lift H. peel_await H.
  peel_lift H. peel_lift H. peel_lift H. peel_lift H. peel_lift H. peel_lift H.
  simpl in H. inversion H; subst.
  assert (Hn : isNullish manga = false).
  { destruct manga; try reflexivity; unfold get, throw in *; discriminate. }
  repeat match goal with
         | E : get manga ?name = inr _ |- _ =>
             rewrite (get_nonnullish manga name Hn) in E; inversion E; subst; clear E
         end.
  do 8 eexists. repeat split; eauto.
Qed.

(** The first two links of both title chains: a usable [en] entry wins,
    and a usable [ja-ro] entry wins when [en] is not usable. *)
Lemma title_chain_head (k : Value) (names : list (string * Value)) (text : string) :
  getOptPath k ["attributes"; "title"] = Obj names ->
  truthy (Str text) = true ->
  getOpt (Obj names) "en" = Str text
  \/ (truthy (getOpt (Obj names) "en") = false
      /\ getOpt (Obj names) "ja-ro" = Str text) ->
  titleOf k = Str text /\ carouselTitle k = ok (Str text).
Proof.
  intros H Htext Hentry. unfold getOptPath in H. cbn [fold_left] in H.
  assert (Hen : getPath k ["attributes"; "title"; "en"] = ok (getOpt (Obj names) "en")).
  { unfold getPath. cbn [fold_left andThen ok].
    destruct (getOpt_nonnullish (getOpt k "attributes") "title") as [aprops Ha];
      [congruence|].
    destruct (getOpt_nonnullish k "attributes") as [props Hk]; [congruence|].
    rewrite Hk in *. rewrite get_object, Ha. cbn [andThen ok]. rewrite get_object.
    rewrite Ha in H. rewrite H. cbn [andThen ok]. apply get_object. }
  unfold titleOf, carouselTitle. rewrite Hen. cbn [andThen ok].
  unfold getOptPath. cbn [fold_left]. rewrite H.
  assert (Hfirst : orElse (getOpt (Obj names) "en") (getOpt (Obj names) "ja-ro")
                   = Str text).
  { unfold orElse. destruct Hentry as [Hentry | [Hfalsy Hentry]].
    - now rewrite Hentry, Htext.
    - now rewrite Hfalsy. }
  rewrite Hfirst. unfold orElse. rewrite Htext. auto.
Qed.

(** C5: the title of a view model comes from a chain that prefers [en]
    and falls back to [ja-ro].  For any non-empty text, an entity whose
    [attributes.title] holds it under [en], or holds it under [ja-ro]
    and has no usable [en] entry, gets exactly that text as title,
    whatever else the mapping holds: the chain of [getLatestManga] and
    [searchManga] and the one of [Carousel] both evaluate to it without
    throwing, and any view model built from the entity carries it.  The
    mapping [{"ja-ro": "Foo"}] gives ["Foo"]. *)
Theorem title_falls_back_to_romaji (k : Value) (names : list (string * Value))
        (text : string) :
  getOptPath k ["attributes"; "title"] = Obj names ->
  truthy (Str text) = true ->
  getOpt (Obj names) "en" = Str text
  \/ (truthy (getOpt (Obj names) "en") = false
      /\ getOpt (Obj names) "ja-ro" = Str text) ->
  titleOf k = Str text
  /\ carouselTitle k = ok (Str text)
  /\ (forall w vm, outcome (await w (listItem k)) = Fulfilled vm ->
                   getOpt vm "title" = Str text)
  /\ (forall w vm, outcome (await w (carouselItem k)) = Fulfilled vm ->
                   getOpt vm "title" = Str text).
Proof.
  intros H Htext Hentry.
  destruct (title_chain_head k H Htext Hentry) as [Htitle Hcar].
  split; [exact Htitle|]. split; [exact Hcar|]. split.
  - intros w vm Hvm.
    destruct (listItem_fulfilled w k Hvm) as (image & cover & _ & _ & ->).
    simpl. exact Htitle.
  - intros w vm Hvm.
    destruct (carouselItem_fulfilled w k Hvm)
      as (tags & image & cover & title & r & d & s & ds & _ & _ & Ht & _ & ->).
    rewrite Hcar in Ht. inversion Ht. reflexivity.
Qed.

Lemma title_witness :
  let k := sampleManga "m1" [coverArt "x.jpg"] in
  let w := servingWorld [k] in
  (exists vm, outcome (await w (listItem k)) = Fulfilled vm
              /\ getOpt vm "title" = Str "Foo")
  /\ (exists vm, outcome (await w (carouselItem k)) = Fulfilled vm
                 /\ getOpt vm "title" = Str "Foo").
Proof.
  intros k w.
  pose proof (@title_falls_back_to_romaji k [("ja-ro", Str "Foo")] "Foo"
                eq_refl eq_refl (or_intror (conj eq_refl eq_refl)))
    as (_ & _ & Hlist & Hcar).
  split; eexists; (split; [vm_compute; reflexivity|]).
  - apply (Hlist w). vm_compute. reflexivity.
  - apply (Hcar w). vm_compute. reflexivity.
Defined.

(** The preference is real: with both entries present the [en] one is
    taken, and a [ja] entry never displaces a [ja-ro] one. *)
Example title_prefers_english :
  let both := Obj [("attributes",
                    Obj [("title", Obj [("ja", Str "C"); ("ja-ro", Str "B");
                                        ("en", Str "A")])])] in
  let noEnglish := Obj [("attributes",
                         Obj [("title", Obj [("ja", Str "C"); ("ja-ro", Str "B");
                                             ("en", Str "")])])] in
  titleOf both = Str "A" /\ carouselTitle both = ok (Str "A")
  /\ titleOf noEnglish = Str "B" /\ carouselTitle noEnglish = ok (Str "B").
Proof. repeat split; reflexivity. Qed.

(** ** Outcomes of composed runs *)

Lemma thenRun_outcome {A B} (r : Run A) (f : A -> Run B) :
  outcome (thenRun r f)
  = match outcome r with
    | Fulfilled a => outcome (f a)
    | Rejected e => Rejected e
    end.
Proof. unfold thenRun. destruct (outcome r); reflexivity. Qed.

Lemma thenRun_fulfilled {A B} (r : Run A) (f : A -> Run B) (a : A) :
  outcome r = Fulfilled a -> outcome (thenRun r f) = outcome (f a).
Proof. intros H. now rewrite thenRun_outcome, H. Qed.

Lemma thenRun_rejected {A B} (r : Run A) (f : A -> Run B) (e : Error) :
  outcome r = Rejected e -> outcome (thenRun r f) = Rejected e.
Proof. intros H. now rewrite thenRun_outcome, H. Qed.

Lemma logAndRethrow_outcome {A} (label : string) (r : Run A) :
  outcome (logAndRethrow label r) = outcome r.
Proof.
  unfold logAndRethrow, catchRun. destruct (outcome r) eqn:E; simpl; congruence.
Qed.

Lemma liftRun_outcome {A} (c : Completion A) :
  outcome (liftRun c)
  = match c with
    | inl e => Rejected e
    | inr a => Fulfilled a
    end.
Proof. destruct c; reflexivity. Qed.

Lemma settleInOrder_nil {A} (order : list nat) :
  settleInOrder order (@nil (Run A)) = (None, [], []).
Proof.
  induction order as [| i rest IH]; simpl; [reflexivity|].
  destruct i; simpl; exact IH.
Qed.

(** [await Promise.all([])]. *)
Lemma awaitAll_nil {A} (w : World) :
  awaitAll w (@nil (Async A))
  = {| outcome := Fulfilled []; trace := []; late := [] |}.
Proof. unfold awaitAll, batchRuns. simpl map. rewrite settleInOrder_nil. reflexivity. Qed.

(** The tail of [getLatestManga] and [searchManga] when the cover lookup
    yields nothing to map over. *)
Lemma resolveListing_without_covers (w : World) (listing ids covers : Value) :
  listedIds listing = ok ids ->
  outcome (await w (fetchCovers ids descendingByUpdate (Num 0) (Num 100))) = Fulfilled covers ->
  getOpt covers "data" = Undefined ->
  outcome (resolveListing w listing) = Fulfilled (Arr []).
Proof.
  intros Hids Hcovers Hdata. unfold resolveListing.
  erewrite thenRun_fulfilled by (rewrite Hids; reflexivity).
  erewrite thenRun_fulfilled by exact Hcovers.
  erewrite thenRun_fulfilled by (unfold listTasks; rewrite Hdata; reflexivity).
  erewrite thenRun_fulfilled by (rewrite awaitAll_nil; reflexivity).
  reflexivity.
Qed.

(** C9: when the cover lookup of [getLatestManga] or [searchManga]
    resolves to [null], or to an object without a [data] field, the
    aggregator fulfils with the empty array. *)
Theorem absent_covers_give_empty_array (w : World) (listing ids covers : Value) :
  listedIds listing = ok ids ->
  outcome (await w (fetchCovers ids descendingByUpdate (Num 0) (Num 100))) = Fulfilled covers ->
  covers = Null \/ (exists props, covers = Obj props /\ lookup "data" props = None) ->
  (outcome (await w (fetchLatestChapters 0 60)) = Fulfilled listing ->
   outcome (getLatestManga w) = Fulfilled (Arr []))
  /\ (forall search,
         outcome (await w (fetchJson "manga" [("title", Str search)])) = Fulfilled listing ->
         outcome (searchManga w search) = Fulfilled (Arr [])).
Proof.
  intros Hids Hcovers Habsent.
  assert (Hdata : getOpt covers "data" = Undefined).
  { destruct Habsent as [-> | (props & -> & Hnone)]; simpl; [reflexivity|].
    now rewrite Hnone. }
  pose proof (resolveListing_without_covers w listing Hids Hcovers Hdata) as Htail.
  split.
  - intros Hlisting. unfold getLatestManga.
    rewrite logAndRethrow_outcome. erewrite thenRun_fulfilled by exact Hlisting.
    exact Htail.
  - intros search Hlisting. unfold searchManga.
    rewrite logAndRethrow_outcome. erewrite thenRun_fulfilled by exact Hlisting.
    exact Htail.
Qed.

Lemma absent_covers_witness :
  outcome (getLatestManga (nullCoversWorld [coverless])) = Fulfilled (Arr []).
Proof.
  refine (proj1 (@absent_covers_give_empty_array
                   (nullCoversWorld [coverless])
                   (collection [coverless]) (Arr [Str "m1"]) Null
                   _ _ (or_introl eq_refl)) _).
  - reflexivity.
  - vm_compute. reflexivity.
  - vm_compute. reflexivity.
Defined.

(** ** The top-listings batch *)

Lemma requests_app (a b : list Event) :
  requests (a ++ b) = (requests a ++ requests b)%list.
Proof. apply flat_map_app. Qed.

Lemma settleInOrder_requests {A} (order : list nat) (runs : list (Run A)) rej before after :
  (forall r, In r runs -> requests (trace r) = []) ->
  settleInOrder order runs = (rej, before, after) ->
  requests before = [] /\ requests after = [].
Proof.
  intros Hruns. revert rej before after.
  assert (Hat : forall l, requests (flat_map (traceAt runs) l) = []).
  { induction l as [| i l IH]; simpl; [reflexivity|].
    rewrite requests_app, IH, app_nil_r. unfold traceAt.
    destruct (nth_error runs i) as [r |] eqn:E; [| reflexivity].
    apply Hruns. eapply nth_error_In; eauto. }
  induction order as [| i rest IH]; simpl; intros rej before after H.
  - inversion H; subst. auto.
  - destruct (nth_error runs i) as [r |] eqn:E; [| eauto].
    assert (Hr : requests (trace r) = []) by (apply Hruns; eapply nth_error_In; eauto).
    destruct (outcome r) as [v | e].
    + destruct (settleInOrder rest runs) as [[rej' b'] a'] eqn:Es.
      inversion H; subst. destruct (IH _ _ _ eq_refl) as [Hb Ha].
      split; [| exact Ha]. now rewrite requests_app, Hr, Hb.
    + inversion H; subst. split; [exact Hr | apply Hat].
Qed.

Lemma awaitAll_trace {A} (w : World) (tasks : list (Async A)) :
  exists rest, trace (awaitAll w tasks) = (flat_map fst (map start tasks) ++ rest)%list.
Proof.
  unfold awaitAll.
  destruct (settleInOrder _ _) as [[[e |] before] after]; simpl; eauto.
Qed.

(** When the tasks request nothing after their first [fetch], a batch
    requests exactly what its tasks request on being called. *)
Lemma awaitAll_requests {A} (w : World) (tasks : list (Async A)) :
  (forall task, In task tasks ->
                requests (trace (finish w (snd (start task)))) = []) ->
  requests (observed (awaitAll w tasks)) = requests (flat_map fst (map start tasks)).
Proof.
  intros Htasks. unfold awaitAll, observed.
  destruct (settleInOrder _ _) as [[rej before] after] eqn:Es.
  assert (Hruns : forall r, In r (map (finish w) (map snd (map start tasks))) ->
                            requests (trace r) = []).
  { intros r Hr. rewrite !map_map in Hr. apply in_map_iff in Hr as (task & <- & Hin).
    now apply Htasks. }
  destruct (settleInOrder_requests _ _ Hruns Es) as [Hb Ha].
  destruct rej; simpl; rewrite !requests_app, Hb, ?Ha, !app_nil_r; reflexivity.
Qed.

Lemma fetchJson_finish_requests (w : World) endpoint params url :
  requestUrl endpoint params = ok url ->
  requests (trace (finish w (snd (start (fetchJson endpoint params))))) = [].
Proof.
  intros H. unfold fetchJson. rewrite H. simpl.
  destruct (http w url) as [| res]; simpl; [reflexivity|].
  destruct (isOk res); simpl; [| reflexivity].
  unfold readJson. destruct (json res); reflexivity.
Qed.

Lemma top_listings_issued :
  flat_map fst (map start topListingQueries)
  = [Requested (rankedUrl "followedCount");
     Requested (rankedUrl "rating");
     Requested (rankedUrl "readingProgress")].
Proof. reflexivity. Qed.

Lemma top_listings_requests (w : World) :
  requests (observed (awaitAll w topListingQueries))
  = [rankedUrl "followedCount"; rankedUrl "rating"; rankedUrl "readingProgress"].
Proof.
  rewrite awaitAll_requests, top_listings_issued; [reflexivity|].
  intros task Hin. destruct (ranked_query_url w Hin) as (params & url & -> & Hurl & _).
  now apply fetchJson_finish_requests with (url := url).
Qed.

(** C7: the three ranked queries (by follows, by rating, by reading
    progress, ten entries each) are all requested before anything else
    happens; and when one of them fails the call rejects, with the
    failure of one of the three, having requested each of the three URLs
    once and nothing else: no retry, no cover lookup, no result. *)
Theorem top_listings_batch (w : World) :
  (exists rest,
      observed (fetchTopListings w)
      = Requested (rankedUrl "followedCount")
        :: Requested (rankedUrl "rating")
        :: Requested (rankedUrl "readingProgress") :: rest)
  /\ forall task e,
      In task topListingQueries ->
      outcome (await w task) = Rejected e ->
      (exists e', outcome (fetchTopListings w) = Rejected e'
                  /\ exists failed, In failed topListingQueries
                                    /\ outcome (await w failed) = Rejected e')
      /\ requests (observed (fetchTopListings w))
         = [rankedUrl "followedCount"; rankedUrl "rating"; rankedUrl "readingProgress"].
Proof.
  split.
  - unfold observed, fetchTopListings, logAndRethrow.
    match goal with
    | |- context [catchRun ?r ?h] =>
        destruct (catchRun_trace r h) as [rest1 H1]; rewrite H1
    end.
    match goal with
    | |- context [thenRun ?r ?f] =>
        destruct (thenRun_trace r f) as [rest2 H2]; rewrite H2
    end.
    destruct (awaitAll_trace w topListingQueries) as [rest3 H3].
    rewrite H3, top_listings_issued. simpl. eexists. reflexivity.
  - intros task e Hin Hout.
    destruct (awaitAll_fails w topListingQueries task Hin Hout) as [e' He'].
    destruct (awaitAll_rejected w topListingQueries He') as (failed & Hf & Hfo & _).
    split.
    + exists e'. split; [| eauto].
      unfold fetchTopListings. rewrite logAndRethrow_outcome.
      now apply thenRun_rejected.
    + pose proof (top_listings_requests w) as Hreq.
      unfold observed in *. unfold fetchTopListings, logAndRethrow, catchRun, thenRun.
      rewrite He'. simpl. rewrite !requests_app in *. simpl.
      rewrite !app_nil_r. exact Hreq.
Qed.

Lemma top_listings_witness :
  requests (observed (fetchTopListings flakyWorld))
  = [rankedUrl "followedCount"; rankedUrl "rating"; rankedUrl "readingProgress"].
Proof.
  refine (proj2 (proj2 (top_listings_batch flakyWorld)
                   (fetchJson "manga" (rankedParams "rating")) (TypeError "fetch failed")
                   _ _)).
  - right. left. reflexivity.
  - vm_compute. reflexivity.
Defined.

(** ** Carousel selection *)

Lemma nth_extract {A} (d : A) (l : list A) (i : nat) :
  i < List.length l ->
  Permutation l (nth i l d :: firstn i l ++ skipn (S i) l).
Proof.
  revert i. induction l as [| x l IH]; simpl; intros i Hi; [lia|].
  destruct i as [| i]; simpl.
  - reflexivity.
  - etransitivity; [apply perm_skip, (IH i); lia|]. apply perm_swap.
Qed.

Lemma arrange_perm {A} (code : list nat) (l : list A) :
  Permutation (arrange code l) l.
Proof.
  revert l. induction code as [| c cs IH]; simpl; intros l; [reflexivity|].
  destruct l as [| x l]; [reflexivity|].
  set (whole := x :: l).
  set (i := Nat.modulo c (List.length whole)).
  assert (Hi : i < List.length whole) by (apply Nat.mod_upper_bound; discriminate).
  etransitivity; [apply perm_skip, IH|].
  symmetry. exact (@nth_extract _ x whole i Hi).
Qed.

Lemma filter_split_perm {A} (g : A -> bool) (l : list A) :
  Permutation (filter (fun v => negb (g v)) l ++ filter g l) l.
Proof.
  induction l as [| x l IH]; simpl; [reflexivity|].
  destruct (g x); simpl.
  - etransitivity; [symmetry; apply Permutation_middle|]. now apply perm_skip.
  - now apply perm_skip.
Qed.

(** Sorting with a random comparator rearranges the array and nothing
    else. *)
Lemma sortRandomly_perm (w : World) (items : list Value) :
  Permutation (sortRandomly w items) items.
Proof.
  unfold sortRandomly.
  etransitivity; [| apply (filter_split_perm isUndefined)].
  apply Permutation_app_tail, arrange_perm.
Qed.

Lemma Forall2_map_left {A B C} (P : B -> C -> Prop) (f : A -> B) (l : list A) (l' : list C) :
  Forall2 P (map f l) l' -> Forall2 (fun a c => P (f a) c) l l'.
Proof.
  revert l'. induction l as [| a l IH]; simpl; intros l' H; inversion H; subst;
    constructor; auto.
Qed.

Lemma Forall2_same_image {A B C} (f : A -> C) (g : B -> C) (l : list A) (l' : list B) :
  Forall2 (fun a b => g b = f a) l l' -> map g l' = map f l.
Proof. induction 1; simpl; congruence. Qed.

Lemma Forall2_right_member {A B} (P : A -> B -> Prop) (l : list A) (l' : list B) (b : B) :
  Forall2 P l l' -> In b l' -> exists a, In a l /\ P a b.
Proof.
  induction 1 as [| a b' l l' Hab _ IH]; simpl; intros Hin; [contradiction|].
  destruct Hin as [<- | Hin].
  - exists a. auto.
  - destruct (IH Hin) as (a' & Ha' & HP). exists a'. auto.
Qed.

(** The view models of a fulfilled [Carousel] batch, entity by entity. *)
Lemma carousel_batch_fulfilled (w : World) (selected vms : list Value) :
  outcome (awaitAll w (map carouselItem selected)) = Fulfilled vms ->
  Forall2 (fun entity vm =>
             outcome (await w (carouselItem entity)) = Fulfilled vm
             /\ getOpt vm "id" = getOpt entity "id"
             /\ getOpt vm "type" = getOpt entity "type") selected vms.
Proof.
  intros H. apply awaitAll_fulfilled, Forall2_map_left in H.
  induction H as [| entity vm selected vms Hvm _ IH]; constructor; [| exact IH].
  destruct (carouselItem_fulfilled w entity Hvm)
    as (tags & image & cover & title & r & d & s & ds & _ & _ & _ & _ & ->).
  repeat split; auto.
Qed.

(** C6: when the page fetched by [Carousel] holds 20 entities, the cover
    lookup made for their ids answers with those entities (the same ids,
    in any order) and the call fulfils, the result holds exactly 6 view
    models, built from 6 different positions of the page [Carousel]
    shuffles: the selected entities together with the 14 left over are a
    rearrangement of it.  So every result carries the id of an entity of
    the fetched page, and no entity is used twice. *)
Theorem carousel_selects_six (w : World) (req manga : Value)
        (listed page : list Value) (result : Value) :
  outcome (await w (fetchJson "manga" (carouselParams (floorRandomTimes w 200))))
  = Fulfilled req ->
  getOpt req "data" = Arr listed ->
  List.length listed = 20 ->
  outcome (await w (fetchCovers (Arr (map (fun m => getOpt m "id") listed))
                                (Obj []) (Num 0) (Num 100))) = Fulfilled manga ->
  getOpt manga "data" = Arr page ->
  Permutation (map (fun entity => getOpt entity "id") page)
              (map (fun m => getOpt m "id") listed) ->
  outcome (Carousel w) = Fulfilled result ->
  exists selected rest vms,
    result = Arr vms
    /\ List.length vms = 6
    /\ List.length selected = 6
    /\ Permutation page (selected ++ rest)
    /\ Forall2 (fun entity vm =>
                  outcome (await w (carouselItem entity)) = Fulfilled vm
                  /\ getOpt vm "id" = getOpt entity "id"
                  /\ getOpt vm "type" = getOpt entity "type") selected vms
    /\ (forall vm, In vm vms ->
                   exists entity m,
                     In entity page /\ In m listed
                     /\ getOpt vm "id" = getOpt entity "id"
                     /\ getOpt vm "id" = getOpt m "id")
    /\ (NoDup (map (fun m => getOpt m "id") listed) ->
        NoDup (map (fun vm => getOpt vm "id") vms)).
Proof.
  intros Hreq Hlisted Hlisted20 Hmanga Hdata Hsame Hres.
  assert (Hids : pageIds req = ok (Arr (map (fun m => getOpt m "id") listed))).
  { unfold pageIds. now rewrite Hlisted. }
  assert (Hlen : List.length page = 20).
  { rewrite <- Hlisted20, <- (length_map (fun entity => getOpt entity "id") page),
      <- (length_map (fun m => getOpt m "id") listed).
    exact (Permutation_length Hsame). }
  unfold Carousel in Hres. rewrite logAndRethrow_outcome in Hres. cbv zeta in Hres.
  erewrite thenRun_fulfilled in Hres by exact Hreq.
  erewrite thenRun_fulfilled in Hres by (rewrite Hids; reflexivity).
  erewrite thenRun_fulfilled in Hres by exact Hmanga.
  erewrite thenRun_fulfilled in Hres
    by (unfold getRandomManga; rewrite Hdata; reflexivity).
  rewrite thenRun_outcome in Hres.
  set (shuffled := sortRandomly w page) in *.
  destruct (outcome (awaitAll w (map carouselItem (slice0 6 shuffled)))) as [vms | e] eqn:Eall;
    [| discriminate].
  simpl in Hres. inversion Hres; subst result. clear Hres.
  pose proof (sortRandomly_perm w page) as Hperm. fold shuffled in Hperm.
  pose proof (carousel_batch_fulfilled w _ Eall) as Hbuilt.
  assert (Hsel : List.length (slice0 6 shuffled) = 6).
  { unfold slice0. rewrite length_firstn, (Permutation_length Hperm), Hlen. reflexivity. }
  assert (Hsplit : Permutation page (slice0 6 shuffled ++ skipn 6 shuffled)).
  { unfold slice0. rewrite firstn_skipn. now symmetry. }
  assert (Hids' : map (fun vm => getOpt vm "id") vms
                  = map (fun entity => getOpt entity "id") (slice0 6 shuffled)).
  { apply Forall2_same_image. eapply Forall2_impl; [| exact Hbuilt].
    intros entity vm (_ & Hid & _). exact Hid. }
  exists (slice0 6 shuffled), (skipn 6 shuffled), vms.
  split; [reflexivity|].
  split; [rewrite <- (Forall2_length Hbuilt); exact Hsel|].
  split; [exact Hsel|]. split; [exact Hsplit|]. split; [exact Hbuilt|]. split.
  - intros vm Hvm.
    destruct (@Forall2_right_member _ _ _ _ _ vm Hbuilt Hvm) as (entity & Hentity & _ & Hid & _).
    assert (Hpage : In entity page).
    { eapply Permutation_in; [symmetry; exact Hsplit|]. apply in_or_app. now left. }
    assert (Hm : In (getOpt entity "id") (map (fun m => getOpt m "id") listed)).
    { eapply Permutation_in; [exact Hsame|].
      exact (in_map (fun entity => getOpt entity "id") page entity Hpage). }
    apply in_map_iff in Hm as (m & Hm & Hin).
    exists entity, m. repeat split; [exact Hpage | exact Hin | exact Hid | congruence].
  - intros Hnodup. rewrite Hids'.
    apply (Permutation_NoDup (Permutation_sym Hsame)) in Hnodup.
    apply (Permutation_map (fun entity => getOpt entity "id")) in Hsplit.
    apply (Permutation_NoDup Hsplit) in Hnodup.
    rewrite map_app in Hnodup. eapply NoDup_app_remove_r. exact Hnodup.
Qed.

Lemma carousel_witness :
  exists vms,
    outcome (Carousel shuffledWorld) = Fulfilled (Arr vms)
    /\ List.length vms = 6
    /\ NoDup (map (fun vm => getOpt vm "id") vms).
Proof.
  pose (result := match outcome (Carousel shuffledWorld) with
                  | Fulfilled v => v
                  | Rejected _ => Undefined
                  end).
  assert (Hrun : outcome (Carousel shuffledWorld) = Fulfilled result)
    by (vm_compute; reflexivity).
  destruct (@carousel_selects_six shuffledWorld
              (collection (pageOf 20)) (collection (pageOf 20))
              (pageOf 20) (pageOf 20) result)
    as (selected & rest & vms & Hres & Hlen & _ & _ & _ & _ & Hnodup).
  - vm_compute. reflexivity.
  - reflexivity.
  - reflexivity.
  - vm_compute. reflexivity.
  - reflexivity.
  - apply Permutation_refl.
  - exact Hrun.
  - exists vms. split; [rewrite Hrun, Hres; reflexivity|]. split; [exact Hlen|].
    apply Hnodup. vm_compute.
    repeat (constructor;
            [simpl; intros H;
             repeat (destruct H as [H | H]; [discriminate H|]); exact H|]).
    constructor.
Defined.

(** Without that agreement the claim fails: what [Carousel] shuffles is
    the answer of the cover lookup, so a lookup that answers with other
    entities than the 20 listed decides the result. *)
Example lookup_decides_the_page :
  outcome (await strayLookupWorld
             (fetchJson "manga" (carouselParams (floorRandomTimes strayLookupWorld 200))))
  = Fulfilled (collection (pageOf 20))
  /\ exists vms,
      outcome (Carousel strayLookupWorld) = Fulfilled (Arr vms)
      /\ map (fun vm => getOpt vm "id") vms = [Str "z1"; Str "z2"; Str "z3"].
Proof.
  split; [vm_compute; reflexivity|].
  eexists. split; vm_compute; reflexivity.
Qed.

(** ** Results are made of view models *)

Lemma thenRun_fulfilled_inv {A B} (r : Run A) (f : A -> Run B) (b : B) :
  outcome (thenRun r f) = Fulfilled b ->
  exists a, outcome r = Fulfilled a /\ outcome (f a) = Fulfilled b.
Proof.
  rewrite thenRun_outcome. destruct (outcome r) as [a | e]; [eauto | discriminate].
Qed.

Lemma liftRun_fulfilled_inv {A} (c : Completion A) (a : A) :
  outcome (liftRun c) = Fulfilled a -> c = ok a.
Proof. destruct c; simpl; intros H; inversion H; reflexivity. Qed.

Lemma listTasks_inv (covers : Value) (tasks : list (Async Value)) :
  listTasks covers = ok tasks -> exists entities, tasks = map listItem entities.
Proof.
  unfold listTasks. destruct (getOpt covers "data"); intros H; inversion H.
  - exists []. reflexivity.
  - exists []. reflexivity.
  - eauto.
Qed.

Lemma resolveListing_results (w : World) (listing result : Value) :
  outcome (resolveListing w listing) = Fulfilled result ->
  exists entities vms,
    result = Arr vms
    /\ Forall2 (fun k vm => outcome (await w (listItem k)) = Fulfilled vm) entities vms.
Proof.
  unfold resolveListing. intros H.
  apply thenRun_fulfilled_inv in H as (ids & _ & H).
  apply thenRun_fulfilled_inv in H as (covers & _ & H).
  apply thenRun_fulfilled_inv in H as (tasks & Htasks & H).
  apply thenRun_fulfilled_inv in H as (vms & Hall & H).
  apply liftRun_fulfilled_inv, listTasks_inv in Htasks as [entities ->].
  simpl in H. inversion H; subst result.
  exists entities, vms. split; [reflexivity|].
  apply awaitAll_fulfilled, Forall2_map_left in Hall. exact Hall.
Qed.

(** Every element of an array returned by [getLatestManga] or
    [searchManga] is the view model [listItem] builds from some entity;
    every element of an array returned by [Carousel] is one
    [carouselItem] builds. *)
Lemma results_are_view_models (w : World) (result : Value) :
  (outcome (getLatestManga w) = Fulfilled result ->
   exists entities vms,
     result = Arr vms
     /\ Forall2 (fun k vm => outcome (await w (listItem k)) = Fulfilled vm) entities vms)
  /\ (forall search,
         outcome (searchManga w search) = Fulfilled result ->
         exists entities vms,
           result = Arr vms
           /\ Forall2 (fun k vm => outcome (await w (listItem k)) = Fulfilled vm)
                      entities vms)
  /\ (outcome (Carousel w) = Fulfilled result ->
      exists entities vms,
        result = Arr vms
        /\ Forall2 (fun k vm => outcome (await w (carouselItem k)) = Fulfilled vm)
                   entities vms).
Proof.
  split; [| split].
  - unfold getLatestManga. rewrite logAndRethrow_outcome. intros H.
    apply thenRun_fulfilled_inv in H as (listing & _ & H).
    exact (resolveListing_results w listing H).
  - intros search. unfold searchManga. rewrite logAndRethrow_outcome. intros H.
    apply thenRun_fulfilled_inv in H as (listing & _ & H).
    exact (resolveListing_results w listing H).
  - unfold Carousel. rewrite logAndRethrow_outcome. cbv zeta. intros H.
    apply thenRun_fulfilled_inv in H as (req & _ & H).
    apply thenRun_fulfilled_inv in H as (ids & _ & H).
    apply thenRun_fulfilled_inv in H as (manga & _ & H).
    apply thenRun_fulfilled_inv in H as (selected & _ & H).
    apply thenRun_fulfilled_inv in H as (vms & Hall & H).
    simpl in H. inversion H; subst result.
    exists selected, vms. split; [reflexivity|].
    apply awaitAll_fulfilled, Forall2_map_left in Hall. exact Hall.
Qed.

(** With two failing queries the batch rejects with whichever failure is
    seen first; the other is still logged, after the call has settled. *)
Example first_failure_wins :
  outcome (fetchTopListings (twoFailuresWorld []))
  = Rejected (Err "HTTP error! Status: 500")
  /\ outcome (fetchTopListings (twoFailuresWorld [1]))
     = Rejected (Err "HTTP error! Status: 404")
  /\ late (fetchTopListings (twoFailuresWorld [1]))
     = [Logged "Fetch error:" (Err "HTTP error! Status: 500")].
Proof. repeat split; vm_compute; reflexivity. Qed.


(** * Further properties of the client *)

(** ** The request URL *)

Lemma allChars_app (p : ascii -> bool) (a b : string) :
  allChars p (a ++ b) = allChars p a && allChars p b.
Proof.
  induction a as [| c a IH]; simpl; [reflexivity|].
  now rewrite IH, andb_assoc.
Qed.

Lemma formByte_safe (c : ascii) : allChars isQuerySafe (Url.formByte c) = true.
Proof. destruct c as [[|] [|] [|] [|] [|] [|] [|] [|]]; reflexivity. Qed.

Lemma formEncode_safe (s : string) : allChars isQuerySafe (Url.formEncode s) = true.
Proof.
  induction s as [| c s IH]; simpl; [reflexivity|].
  now rewrite allChars_app, formByte_safe, IH.
Qed.

Lemma render_safe (sp : Url.SearchParams) : allChars isQuerySafe (Url.render sp) = true.
Proof.
  unfold Url.render. induction sp as [| p sp IH]; [reflexivity|].
  assert (Hp : allChars isQuerySafe (Url.formPair p) = true).
  { unfold Url.formPair. now rewrite !allChars_app, !formEncode_safe. }
  destruct sp as [| q sp]; [exact Hp|].
  cbn [map] in *. rewrite joinWith_cons, !allChars_app, Hp, IH. reflexivity.
Qed.

(** X1: for a plain endpoint such as ["manga"] and parameters whose
    numbers are safe integers, the URL [fetchJson] requests is the base
    URL followed by the endpoint and, when the parameters serialize to
    a non-empty text, by [?] and that text unchanged: the serializer
    only emits letters, digits and [* - . _ + % = &], which the [search]
    setter of the URL leaves alone. *)
Theorem request_url_composition (endpoint : string) (params : list (string * Value))
        (s : string) :
  plainEndpoint endpoint = true ->
  safeParameters params = true ->
  serializeParameters params = ok s ->
  requestUrl endpoint params
  = ok (match s with
        | EmptyString => baseUrl ++ endpoint
        | _ => (baseUrl ++ endpoint) ++ "?" ++ s
        end)
  /\ allChars isQuerySafe s = true.
Proof.
  intros _ _ H. split; [exact (requestUrl_shape endpoint params H)|].
  unfold serializeParameters in H.
  destruct (collectParameters params) as [e | sp]; simpl in H; [discriminate|].
  inversion H; subst s. apply render_safe.
Qed.

Lemma request_url_composition_witness :
  requestUrl "manga" [("title", Str "one piece #1?"); ("limit", Num 10)]
  = ok "https://api.mangadex.org/manga?title=one+piece+%231%3F&limit=10".
Proof.
  exact (proj1 (@request_url_composition
                  "manga" [("title", Str "one piece #1?"); ("limit", Num 10)]
                  "title=one+piece+%231%3F&limit=10" eq_refl eq_refl eq_refl)).
Defined.

(** ** Failures of the serializer *)












(** ** Single requests *)

(** X3: for a plain endpoint such as ["manga"] and parameters whose
    numbers are safe integers, once its URL is built, [fetchJson]
    fulfils exactly when the reply has a success status and a JSON
    body, with that body and nothing logged; in every other case (no
    reply, another status, a body that is not JSON) it rejects, having
    logged the very error it rejects with once under [Fetch error:].
    Either way the URL is requested exactly once. *)
Theorem fetchJson_outcomes (w : World) (endpoint : string)
        (params : list (string * Value)) (url : string) :
  plainEndpoint endpoint = true ->
  safeParameters params = true ->
  requestUrl endpoint params = ok url ->
  let r := await w (fetchJson endpoint params) in
  (forall v, outcome r = Fulfilled v
             <-> exists res, http w url = Responded res
                             /\ isOk res = true /\ json res = Some v)
  /\ (forall v, outcome r = Fulfilled v -> trace r = [Requested url])
  /\ (forall e, outcome r = Rejected e ->
                trace r = [Requested url; Logged "Fetch error:" e])
  /\ requests (observed r) = [url].
Proof.
  intros _ _ Hurl r. subst r. rewrite (fetchJson_run w _ _ Hurl).
  destruct (http w url) as [| res] eqn:Ereply; simpl.
  - repeat split; try discriminate; intros.
    + destruct H as (res & Hres & _). discriminate.
    + inversion H; subst. reflexivity.
  - destruct (isOk res) eqn:Eok; [destruct (json res) as [body |] eqn:Ejson |]; simpl;
      repeat split; try discriminate; intros;
      try (inversion H; subst; eauto; fail);
      try (destruct H as (res' & Hres & Hok & Hjson); inversion Hres; subst; congruence).
Qed.

Lemma fetchJson_outcomes_witness :
  outcome (await (servingWorld [coverless]) (fetchJson "manga" [("limit", Num 10)]))
  = Fulfilled (collection [coverless]).
Proof.
  apply (proj1 (@fetchJson_outcomes (servingWorld [coverless]) "manga" [("limit", Num 10)]
                  "https://api.mangadex.org/manga?limit=10" eq_refl eq_refl eq_refl)).
  eexists. split; [reflexivity|]. split; reflexivity.
Defined.

Lemma fetchCover_run (w : World) (image : string) :
  await w (fetchCover image)
  = match http w image with
    | Unreachable =>
        {| outcome := Rejected (TypeError "fetch failed");
           trace := [Requested image;
                     Logged "Error fetching image:" (TypeError "fetch failed")];
           late := [] |}
    | Responded res =>
        if isOk res then
          {| outcome := Fulfilled (dataUriPrefix ++ base64 (bytes res));
             trace := [Requested image]; late := [] |}
        else
          let e := Err ("Failed to fetch image (" ++ showZ (status res) ++ "): "
                        ++ statusText res) in
          {| outcome := Rejected e;
             trace := [Requested image; Logged "Error fetching image:" e];
             late := [] |}
    end.
Proof.
  unfold fetchCover. simpl.
  destruct (http w image) as [| res]; simpl; [reflexivity|].
  destruct (isOk res); reflexivity.
Qed.

(** X4: [fetchCover] requests the image exactly once and fulfils exactly
    when the reply has a success status, with the JPEG data URI of the
    base64 text of the body; a reply with another status makes it
    reject with an error that carries the status code and status text,
    logged once under [Error fetching image:]. *)
Theorem fetchCover_outcomes (w : World) (image : string) :
  let r := await w (fetchCover image) in
  (forall uri, outcome r = Fulfilled uri
               <-> exists res, http w image = Responded res /\ isOk res = true
                               /\ uri = dataUriPrefix ++ base64 (bytes res))
  /\ (forall res, http w image = Responded res -> isOk res = false ->
                  let e := Err ("Failed to fetch image (" ++ showZ (status res) ++ "): "
                                ++ statusText res) in
                  outcome r = Rejected e
                  /\ trace r = [Requested image; Logged "Error fetching image:" e])
  /\ requests (observed r) = [image].
Proof.
  intros r. subst r. rewrite fetchCover_run.
  destruct (http w image) as [| res] eqn:Ereply; simpl.
  - repeat split; try discriminate; intros.
    destruct H as (res & Hres & _). discriminate.
  - destruct (isOk res) eqn:Eok; simpl; repeat split; try discriminate; intros;
      try (inversion H; subst; eauto; fail);
      try (destruct H as (res' & Hres & Hok & ->); inversion Hres; subst; congruence);
      try (inversion H; subst; congruence).
Qed.

Lemma fetchCover_outcomes_witness :
  outcome (await notFoundWorld (fetchCover "https://uploads.mangadex.org/covers/m1/x.jpg.256.jpg"))
  = Rejected (Err "Failed to fetch image (404): Not Found").
Proof.
  exact (proj1 (proj1 (proj2 (@fetchCover_outcomes notFoundWorld
                                "https://uploads.mangadex.org/covers/m1/x.jpg.256.jpg"))
                  {| status := 404; statusText := "Not Found"; json := None; bytes := "" |}
                  eq_refl eq_refl)).
Defined.

(** ** The cover string *)

Lemma get_allChars (p : ascii -> bool) (s : string) (k : nat) :
  allChars p s = true ->
  match String.get k s with
  | Some c => p c = true
  | None => True
  end.
Proof.
  revert k. induction s as [| c s IH]; simpl; intros k H; [exact I|].
  apply andb_prop in H as [Hc Hs]. destruct k; [exact Hc | now apply IH].
Qed.

Lemma b64Char_base64 (n : N) : isBase64Char (b64Char n) = true.
Proof.
  unfold b64Char.
  pose proof (get_allChars isBase64Char b64Alphabet (N.to_nat n) eq_refl) as H.
  destruct (String.get (N.to_nat n) b64Alphabet); [exact H | reflexivity].
Qed.

Lemma base64_shape :
  forall s : string,
    allChars isBase64Char (base64 s) = true
    /\ String.length (base64 s) = 4 * ((String.length s + 2) / 3).
Proof.
  fix IH 1. intros s.
  destruct s as [| a [| b [| c rest]]].
  - split; reflexivity.
  - split; [simpl; now rewrite !b64Char_base64 | reflexivity].
  - split; [simpl; now rewrite !b64Char_base64 | reflexivity].
  - destruct (IH rest) as [Hchars Hlen]. split.
    + cbn [base64 allChars]. now rewrite !b64Char_base64, Hchars.
    + cbn [base64 String.length]. rewrite Hlen.
      replace (S (S (S (String.length rest))) + 2)
        with (String.length rest + 2 + 1 * 3) by lia.
      rewrite Nat.div_add by discriminate. lia.
Qed.

(** X5: the string a fulfilled [fetchCover] returns is
    [data:image/jpeg;base64,] followed by a payload made of base64
    characters only, four for every three bytes of the body, rounded
    up: its length is always a multiple of four. *)
Theorem cover_data_uri_shape (w : World) (image uri : string) :
  outcome (await w (fetchCover image)) = Fulfilled uri ->
  exists res payload,
    http w image = Responded res
    /\ uri = dataUriPrefix ++ payload
    /\ allChars isBase64Char payload = true
    /\ String.length payload = 4 * ((String.length (bytes res) + 2) / 3).
Proof.
  rewrite fetchCover_run.
  destruct (http w image) as [| res]; simpl; [discriminate|].
  destruct (isOk res); simpl; intros H; inversion H.
  exists res, (base64 (bytes res)).
  destruct (base64_shape (bytes res)) as [Hchars Hlen]. auto.
Qed.

Lemma cover_data_uri_witness :
  exists res payload,
    http (servingWorld []) "https://uploads.mangadex.org/covers/m1/x.jpg.256.jpg"
    = Responded res
    /\ "data:image/jpeg;base64,TWFu" = dataUriPrefix ++ payload
    /\ allChars isBase64Char payload = true
    /\ String.length payload = 4 * ((String.length (bytes res) + 2) / 3).
Proof.
  exact (@cover_data_uri_shape (servingWorld [])
           "https://uploads.mangadex.org/covers/m1/x.jpg.256.jpg"
           "data:image/jpeg;base64,TWFu" eq_refl).
Defined.

(** ** The search text *)

Lemma formDecode_formByte (c : ascii) (rest : string) :
  formDecode (Url.formByte c ++ rest) = String c (formDecode rest).
Proof. destruct c as [[|] [|] [|] [|] [|] [|] [|] [|]]; reflexivity. Qed.

Lemma formDecode_formEncode (s : string) : formDecode (Url.formEncode s) = s.
Proof.
  induction s as [| c s IH]; simpl; [reflexivity|].
  now rewrite formDecode_formByte, IH.
Qed.

(** X6: [searchManga] begins by requesting the listing under
    [?title=] followed by the form-urlencoded search text, whatever
    bytes the text holds, and the encoding loses nothing: decoding it
    gives the search text back. *)
Theorem search_text_round_trip (w : World) (search : string) :
  let url := (baseUrl ++ "manga") ++ "?" ++ "title=" ++ Url.formEncode search in
  requestUrl "manga" [("title", Str search)] = ok url
  /\ (exists rest, observed (searchManga w search) = Requested url :: rest)
  /\ formDecode (Url.formEncode search) = search
  /\ allChars isQuerySafe (Url.formEncode search) = true.
Proof.
  intros url.
  assert (Hurl : requestUrl "manga" [("title", Str search)] = ok url).
  { exact (@requestUrl_shape "manga" [("title", Str search)]
             ("title=" ++ Url.formEncode search) eq_refl). }
  split; [exact Hurl|]. split; [| split; [apply formDecode_formEncode | apply formEncode_safe]].
  destruct (fetchJson_starts _ _ Hurl) as [resume Hfetch].
  unfold observed, searchManga, logAndRethrow.
  match goal with
  | |- context [catchRun ?r ?h] =>
      destruct (catchRun_trace r h) as [rest1 H1]; rewrite H1
  end.
  match goal with
  | |- context [thenRun ?r ?f] =>
      destruct (thenRun_trace r f) as [rest2 H2]; rewrite H2
  end.
  rewrite Hfetch. simpl. eexists. reflexivity.
Qed.

(** ** The listing and its cover lookup *)

Lemma thenRun_step {A B} (r : Run A) (f : A -> Run B) (a : A) :
  outcome r = Fulfilled a ->
  thenRun r f = {| outcome := outcome (f a);
                   trace := (trace r ++ trace (f a))%list;
                   late := (late r ++ late (f a))%list |}.
Proof. intros H. unfold thenRun. now rewrite H. Qed.

Lemma thenRun_stop {A B} (r : Run A) (f : A -> Run B) (e : Error) :
  outcome r = Rejected e ->
  thenRun r f = {| outcome := Rejected e; trace := trace r; late := late r |}.
Proof. intros H. unfold thenRun. now rewrite H. Qed.

Lemma requests_logAndRethrow {A} (label : string) (r : Run A) :
  requests (observed (logAndRethrow label r)) = requests (observed r).
Proof.
  unfold logAndRethrow, catchRun, observed. destruct (outcome r); simpl; [reflexivity|].
  rewrite !requests_app. simpl. now rewrite !app_nil_r.
Qed.

Lemma fetchJson_fulfilled_trace (w : World) endpoint params url v :
  requestUrl endpoint params = ok url ->
  outcome (await w (fetchJson endpoint params)) = Fulfilled v ->
  trace (await w (fetchJson endpoint params)) = [Requested url].
Proof.
  intros Hurl. rewrite (fetchJson_run w _ _ Hurl).
  destruct (http w url) as [| res]; simpl; [discriminate|].
  destruct (isOk res); [destruct (json res) |]; simpl; intros H;
    try discriminate; reflexivity.
Qed.

Lemma latest_fulfilled_trace (w : World) (listing : Value) :
  outcome (await w (fetchLatestChapters 0 60)) = Fulfilled listing ->
  trace (await w (fetchLatestChapters 0 60)) = [Requested latestUrl].
Proof.
  unfold fetchLatestChapters. apply fetchJson_fulfilled_trace. reflexivity.
Qed.

Lemma ids_of_entities (entities : list Value) (ids : list string) :
  map (fun k => getOpt k "id") entities = map Str ids ->
  idsOf entities = ok (Arr (map Str ids)).
Proof.
  unfold idsOf. intros H.
  assert (Hseq : sequence (map (fun k => get k "id") entities) = ok (map Str ids)).
  { revert ids H. induction entities as [| k entities IH]; intros [| id ids] H;
      simpl in *; try discriminate; [reflexivity|].
    inversion H as [[Hk Hrest]].
    destruct (getOpt_nonnullish k "id") as [props ->]; [congruence|].
    rewrite get_object, Hk. cbn [andThen ok].
    rewrite (IH ids Hrest). cbn [andThen ok]. rewrite ?Hrest. reflexivity. }
  now rewrite Hseq.
Qed.

Lemma covers_pairs (ids : list string) :
  collectParameters (coversParams (Arr (map Str ids)) descendingByUpdate (Num 0) (Num 100))
  = ok (map (fun id => ("ids[]", id)) ids
        ++ ("order[updatedAt]", "desc") :: coversTail)%list.
Proof.
  rewrite collectParameters_spec.
  - simpl. rewrite map_map. reflexivity.
  - simpl. rewrite !andb_true_r. clear. induction ids; simpl; auto.
Qed.

(** X7: when the listing of [getLatestManga] answers with entities that
    carry text ids, the very next request is the cover lookup, and its
    parameters are one [ids[]] pair per listed entity, in listing
    order, then [order[updatedAt]=desc], the six kinds of relationship
    to include, offset 0 and limit 100. *)
Theorem cover_lookup_carries_listed_ids (w : World) (listing : Value)
        (entities : list Value) (ids : list string) :
  outcome (await w (fetchLatestChapters 0 60)) = Fulfilled listing ->
  getOpt listing "data" = Arr entities ->
  map (fun k => getOpt k "id") entities = map Str ids ->
  let params := coversParams (Arr (map Str ids)) descendingByUpdate (Num 0) (Num 100) in
  collectParameters params
  = ok (map (fun id => ("ids[]", id)) ids
        ++ ("order[updatedAt]", "desc") :: coversTail)%list
  /\ exists url rest,
      requestUrl "manga" params = ok url
      /\ observed (getLatestManga w) = Requested latestUrl :: Requested url :: rest.
Proof.
  intros Hlisting Hdata Hids params. split; [apply covers_pairs|].
  assert (Hurl : exists url, requestUrl "manga" params = ok url).
  { unfold requestUrl, serializeParameters, params. rewrite covers_pairs.
    simpl. eauto. }
  destruct Hurl as [url Hurl]. exists url.
  assert (Hlisted : listedIds listing = ok (Arr (map Str ids))).
  { unfold listedIds.
    destruct (getOpt_nonnullish listing "data") as [props ->]; [congruence|].
    cbn [isNullish]. rewrite get_object, Hdata. cbn [andThen ok arrayReceiver].
    now apply ids_of_entities. }
  destruct (fetchJson_starts _ _ Hurl) as [resume Hfetch].
  unfold observed, getLatestManga, logAndRethrow.
  match goal with
  | |- context [catchRun ?r ?h] =>
      destruct (catchRun_trace r h) as [rest1 H1]; rewrite H1
  end.
  rewrite (thenRun_step _ _ Hlisting). cbn [trace].
  rewrite (latest_fulfilled_trace w Hlisting).
  unfold resolveListing. rewrite Hlisted.
  rewrite (@thenRun_step _ _ (liftRun (ok (Arr (map Str ids)))) _ (Arr (map Str ids)) eq_refl).
  cbn [trace liftRun ok done].
  change (fetchCovers (Arr (map Str ids)) descendingByUpdate (Num 0) (Num 100))
    with (fetchJson "manga" params).
  match goal with
  | |- context [thenRun ?r ?f] =>
      destruct (thenRun_trace r f) as [rest2 H2]; rewrite H2
  end.
  rewrite Hfetch. simpl. eexists. eauto.
Qed.

Lemma cover_lookup_witness :
  exists url rest,
    requestUrl "manga"
      (coversParams (Arr (map Str ["m1"; "m2"])) descendingByUpdate (Num 0) (Num 100))
    = ok url
    /\ observed (getLatestManga (servingWorld (pageOf 2)))
       = Requested latestUrl :: Requested url :: rest.
Proof.
  refine (proj2 (@cover_lookup_carries_listed_ids (servingWorld (pageOf 2))
                   (collection (pageOf 2)) (pageOf 2) ["m1"; "m2"] _ _ _)).
  - vm_compute. reflexivity.
  - reflexivity.
  - reflexivity.
Defined.

(** X8: when the listing of [getLatestManga] resolves to [null] the
    optional chain yields [undefined] for the ids, and the cover lookup
    is requested all the same, with the single pair [ids=undefined] in
    place of the [ids[]] pairs. *)
Theorem null_listing_looks_up_undefined (w : World) :
  outcome (await w (fetchLatestChapters 0 60)) = Fulfilled Null ->
  collectParameters (coversParams Undefined descendingByUpdate (Num 0) (Num 100))
  = ok (("ids", "undefined") :: ("order[updatedAt]", "desc") :: coversTail)
  /\ exists url rest,
      requestUrl "manga" (coversParams Undefined descendingByUpdate (Num 0) (Num 100))
      = ok url
      /\ observed (getLatestManga w) = Requested latestUrl :: Requested url :: rest.
Proof.
  intros Hlisting. split; [reflexivity|].
  set (params := coversParams Undefined descendingByUpdate (Num 0) (Num 100)).
  assert (Hurl : exists url, requestUrl "manga" params = ok url)
    by (eexists; reflexivity).
  destruct Hurl as [url Hurl]. exists url.
  destruct (fetchJson_starts _ _ Hurl) as [resume Hfetch].
  unfold observed, getLatestManga, logAndRethrow.
  match goal with
  | |- context [catchRun ?r ?h] =>
      destruct (catchRun_trace r h) as [rest1 H1]; rewrite H1
  end.
  rewrite (thenRun_step _ _ Hlisting). cbn [trace].
  rewrite (latest_fulfilled_trace w Hlisting).
  unfold resolveListing. cbn [listedIds isNullish].
  rewrite (@thenRun_step _ _ (liftRun (ok Undefined)) _ Undefined eq_refl).
  cbn [trace liftRun ok done].
  change (fetchCovers Undefined descendingByUpdate (Num 0) (Num 100))
    with (fetchJson "manga" params).
  match goal with
  | |- context [thenRun ?r ?f] =>
      destruct (thenRun_trace r f) as [rest2 H2]; rewrite H2
  end.
  rewrite Hfetch. simpl. eexists. eauto.
Qed.

Lemma null_listing_witness :
  exists url rest,
    requestUrl "manga" (coversParams Undefined descendingByUpdate (Num 0) (Num 100))
    = ok url
    /\ observed (getLatestManga (quietWorld (fun _ => reply 200 "OK" (Some Null) "")))
       = Requested latestUrl :: Requested url :: rest.
Proof.
  refine (proj2 (@null_listing_looks_up_undefined
                   (quietWorld (fun _ => reply 200 "OK" (Some Null) "")) _)).
  vm_compute. reflexivity.
Defined.

(** X9: when the listing of [getLatestManga] or [searchManga] resolves
    to a value other than [null] whose [data] is missing or [null],
    calling [map] on it throws: the aggregator rejects with that
    [TypeError], logged once under its label, and the cover lookup is
    never requested. *)
Theorem listing_without_data_rejects (w : World) (listing : Value) :
  isNullish listing = false ->
  isNullish (getOpt listing "data") = true ->
  let e := TypeError "Cannot read properties of nullish value (reading 'map')" in
  (outcome (await w (fetchLatestChapters 0 60)) = Fulfilled listing ->
   getLatestManga w
   = {| outcome := Rejected e;
        trace := [Requested latestUrl; Logged "Error in getLatestManga:" e];
        late := [] |})
  /\ (forall search url,
         requestUrl "manga" [("title", Str search)] = ok url ->
         outcome (await w (fetchJson "manga" [("title", Str search)])) = Fulfilled listing ->
         searchManga w search
         = {| outcome := Rejected e;
              trace := [Requested url; Logged "Error in getLatestManga:" e];
              late := [] |}).
Proof.
  intros Hlisting Hdata e.
  assert (Hids : listedIds listing = throw e).
  { unfold listedIds. rewrite Hlisting, (get_nonnullish _ _ Hlisting).
    cbn [andThen ok]. destruct (getOpt listing "data"); try discriminate; reflexivity. }
  assert (Htail : resolveListing w listing
                  = {| outcome := Rejected e; trace := []; late := [] |}).
  { unfold resolveListing. rewrite Hids. reflexivity. }
  assert (Hlate : forall endpoint params, late (await w (fetchJson endpoint params)) = [])
    by (intros; apply await_late).
  split.
  - intros Hrun. unfold getLatestManga.
    rewrite (thenRun_step _ _ Hrun), Htail, (latest_fulfilled_trace w Hrun).
    unfold fetchLatestChapters. rewrite Hlate. reflexivity.
  - intros search url Hurl Hrun. unfold searchManga.
    rewrite (thenRun_step _ _ Hrun), Htail, (fetchJson_fulfilled_trace w _ _ Hurl Hrun).
    rewrite Hlate. reflexivity.
Qed.

Lemma listing_without_data_witness :
  outcome (getLatestManga (quietWorld (fun _ => reply 200 "OK"
                                                  (Some (Obj [("result", Str "error")])) "")))
  = Rejected (TypeError "Cannot read properties of nullish value (reading 'map')").
Proof.
  rewrite (proj1 (@listing_without_data_rejects
                    (quietWorld (fun _ => reply 200 "OK"
                                            (Some (Obj [("result", Str "error")])) ""))
                    (Obj [("result", Str "error")]) eq_refl eq_refl)).
  - reflexivity.
  - vm_compute. reflexivity.
Defined.

(** ** All covers or nothing *)

Lemma awaitAll_all_fulfilled {A} (w : World) (tasks : list (Async A)) :
  (forall task, In task tasks -> exists v, outcome (await w task) = Fulfilled v) ->
  exists vs, outcome (awaitAll w tasks) = Fulfilled vs.
Proof.
  intros Hall. destruct (outcome (awaitAll w tasks)) as [vs | e] eqn:E; [eauto|].
  destruct (awaitAll_rejected w tasks E) as (task & Hin & Hout & _).
  destruct (Hall task Hin) as [v Hv]. congruence.
Qed.

Lemma logAndRethrow_rejected {A} (label : string) (r : Run A) (e : Error) :
  outcome r = Rejected e ->
  outcome (logAndRethrow label r) = Rejected e
  /\ trace (logAndRethrow label r) = (trace r ++ [Logged label e])%list.
Proof. intros H. unfold logAndRethrow, catchRun. rewrite H. simpl. auto. Qed.

(** Past the cover lookup, [getLatestManga] settles as the batch of its
    items does. *)
Lemma latest_outcome (w : World) (entities : list Value) :
  latestCovers w entities ->
  outcome (getLatestManga w)
  = match outcome (awaitAll w (map listItem entities)) with
    | Fulfilled vms => Fulfilled (Arr vms)
    | Rejected e => Rejected e
    end.
Proof.
  intros (listing & ids & covers & Hlisting & Hids & Hcovers & Hdata).
  unfold getLatestManga. rewrite logAndRethrow_outcome.
  erewrite thenRun_fulfilled by exact Hlisting. unfold resolveListing.
  erewrite thenRun_fulfilled by (rewrite Hids; reflexivity).
  erewrite thenRun_fulfilled by exact Hcovers.
  erewrite thenRun_fulfilled by (unfold listTasks; rewrite Hdata; reflexivity).
  rewrite thenRun_outcome.
  destruct (outcome (awaitAll w (map listItem entities))); reflexivity.
Qed.

(** What is observed after a batch has settled comes from the tasks
    still running. *)
Lemma settleInOrder_late {A} (P : Event -> Prop) (order : list nat) (runs : list (Run A))
      rej before after :
  (forall r, In r runs -> Forall P (trace r)) ->
  settleInOrder order runs = (rej, before, after) ->
  Forall P after.
Proof.
  intros Hruns. revert rej before after.
  assert (Hat : forall l, Forall P (flat_map (traceAt runs) l)).
  { induction l as [| i l IH]; simpl; [constructor|].
    apply Forall_app. split; [| exact IH]. unfold traceAt.
    destruct (nth_error runs i) as [r |] eqn:E; [| constructor].
    apply Hruns. eapply nth_error_In; eauto. }
  induction order as [| i rest IH]; simpl; intros rej before after H.
  - inversion H; subst. constructor.
  - destruct (nth_error runs i) as [r |] eqn:E; [| eauto].
    destruct (outcome r) as [v | e].
    + destruct (settleInOrder rest runs) as [[rej' b'] a'] eqn:Es.
      inversion H; subst. exact (IH _ _ _ eq_refl).
    + inversion H; subst. apply Hat.
Qed.

Lemma awaitAll_late {A} (P : Event -> Prop) (w : World) (tasks : list (Async A)) :
  (forall task, In task tasks -> Forall P (trace (finish w (snd (start task))))) ->
  Forall P (late (awaitAll w tasks)).
Proof.
  intros Htasks. unfold awaitAll.
  destruct (settleInOrder _ _) as [[rej before] after] eqn:Es.
  assert (Hruns : forall r, In r (batchRuns w tasks) -> Forall P (trace r)).
  { intros r Hr. unfold batchRuns in Hr. rewrite !map_map in Hr.
    apply in_map_iff in Hr as (task & <- & Hin). now apply Htasks. }
  pose proof (@settleInOrder_late _ P _ _ _ _ _ Hruns Es) as Hafter.
  destruct rej; simpl; [exact Hafter | constructor].
Qed.

Lemma listItem_finish_logs (w : World) (k : Value) :
  Forall (fun ev => exists failure, ev = Logged "Error fetching image:" failure)
         (trace (finish w (snd (start (listItem k))))).
Proof.
  unfold listItem. destruct (coverUrl k) as [e | image]; [constructor|].
  simpl. destruct (http w image) as [| res]; simpl.
  - repeat constructor. eauto.
  - destruct (isOk res); simpl; repeat constructor. eauto.
Qed.

Lemma late_logAndRethrow {A} (label : string) (r : Run A) :
  late (logAndRethrow label r) = late r.
Proof.
  unfold logAndRethrow, catchRun. destruct (outcome r); simpl; [reflexivity|].
  apply app_nil_r.
Qed.

Lemma latest_late (w : World) (entities : list Value) :
  latestCovers w entities ->
  late (getLatestManga w) = late (awaitAll w (map listItem entities)).
Proof.
  intros (listing & ids & covers & Hlisting & Hids & Hcovers & Hdata).
  unfold getLatestManga. rewrite late_logAndRethrow.
  rewrite thenRun_step with (a := listing) by exact Hlisting.
  cbn [late]. rewrite await_late. cbn [app].
  unfold resolveListing. rewrite Hids.
  rewrite thenRun_step with (a := ids) by reflexivity.
  cbn [late liftRun done app].
  rewrite thenRun_step with (a := covers) by exact Hcovers.
  cbn [late]. rewrite await_late. cbn [app].
  unfold listTasks. rewrite Hdata.
  rewrite thenRun_step with (a := map listItem entities) by reflexivity.
  cbn [late liftRun done app].
  unfold thenRun. destruct (outcome (awaitAll w (map listItem entities)));
    cbn [late done]; [apply app_nil_r | reflexivity].
Qed.

(** X10: in [getLatestManga] one item that fails, be it one image the
    host does not serve, is enough for the whole call to reject: the
    error is the rejection of one of the items, and no array of the
    other view models is returned.  The log under the aggregator's
    label is the last event before the call settles; whatever is
    observed after that is an item still running that logs the failure
    of its own image. *)
Theorem failed_cover_rejects_listing (w : World) (entities : list Value)
        (k : Value) (e : Error) :
  latestCovers w entities ->
  In k entities ->
  outcome (await w (listItem k)) = Rejected e ->
  exists e' k',
    In k' entities
    /\ outcome (await w (listItem k')) = Rejected e'
    /\ outcome (getLatestManga w) = Rejected e'
    /\ (exists before,
          trace (getLatestManga w)
          = (before ++ [Logged "Error in getLatestManga:" e'])%list)
    /\ Forall (fun ev => exists failure, ev = Logged "Error fetching image:" failure)
              (late (getLatestManga w)).
Proof.
  intros Hcovers Hin Hk.
  destruct (awaitAll_fails w (map listItem entities) (listItem k)
              (in_map listItem _ _ Hin) Hk) as [e' He'].
  destruct (awaitAll_rejected w (map listItem entities) He') as (task & Htask & Hout & _).
  apply in_map_iff in Htask as (k' & <- & Hk').
  assert (Hrun : outcome (getLatestManga w) = Rejected e')
    by (rewrite (latest_outcome Hcovers), He'; reflexivity).
  exists e', k'. split; [exact Hk'|]. split; [exact Hout|]. split; [exact Hrun|]. split.
  - unfold getLatestManga in *. rewrite logAndRethrow_outcome in Hrun.
    destruct (logAndRethrow_rejected "Error in getLatestManga:" _ Hrun) as [_ Ht].
    rewrite Ht. eauto.
  - rewrite (latest_late Hcovers). apply awaitAll_late.
    intros task Htask. apply in_map_iff in Htask as (k0 & <- & _).
    apply listItem_finish_logs.
Qed.

Lemma failed_cover_witness :
  let w := quietWorld (fun url =>
             if String.prefix baseUrl url
             then reply 200 "OK" (Some (collection (pageOf 3))) ""
             else reply 404 "Not Found" None "") in
  (exists e', outcome (getLatestManga w) = Rejected e')
  /\ List.length (late (getLatestManga w)) = 2
  /\ Forall (fun ev => exists failure, ev = Logged "Error fetching image:" failure)
            (late (getLatestManga w)).
Proof.
  intros w.
  destruct (@failed_cover_rejects_listing w (pageOf 3)
              (sampleManga "m2" [author; coverArt "x.jpg"])
              (Err "Failed to fetch image (404): Not Found"))
    as (e' & k' & _ & _ & Hrun & _ & Hlate).
  - exists (collection (pageOf 3)), (Arr [Str "m1"; Str "m2"; Str "m3"]),
      (collection (pageOf 3)).
    repeat split; vm_compute; reflexivity.
  - right. left. reflexivity.
  - vm_compute. reflexivity.
  - split; [exists e'; exact Hrun|]. split; [vm_compute; reflexivity | exact Hlate].
Defined.

(** X11: past the cover lookup, [getLatestManga] fulfils exactly when
    every item of the page does, and then the array follows the page
    position by position, whatever order the images arrive in: the
    i-th view model holds the i-th entity's id, update time and title
    and the data URI fetched from the URL built for that entity. *)
Theorem listing_follows_cover_page (w : World) (entities : list Value) :
  latestCovers w entities ->
  ((forall k, In k entities -> exists vm, outcome (await w (listItem k)) = Fulfilled vm)
   <-> exists vms, outcome (getLatestManga w) = Fulfilled (Arr vms))
  /\ forall vms,
      outcome (getLatestManga w) = Fulfilled (Arr vms) ->
      Forall2 (fun k vm =>
                 exists image cover,
                   coverUrl k = ok image
                   /\ outcome (await w (fetchCover image)) = Fulfilled cover
                   /\ vm = Obj [("id", getOpt k "id");
                                ("updatedAt", getOptPath k ["attributes"; "updatedAt"]);
                                ("cover", Str cover);
                                ("title", titleOf k)]) entities vms.
Proof.
  intros Hcovers. pose proof (latest_outcome Hcovers) as Hout.
  assert (Hitems : forall vms,
             outcome (getLatestManga w) = Fulfilled (Arr vms) ->
             Forall2 (fun k vm => outcome (await w (listItem k)) = Fulfilled vm)
                     entities vms).
  { intros vms H. rewrite Hout in H.
    destruct (outcome (awaitAll w (map listItem entities))) as [vs | e] eqn:E;
      [| discriminate].
    inversion H; subst vs.
    apply awaitAll_fulfilled, Forall2_map_left in E. exact E. }
  split; [split|].
  - intros Hall.
    destruct (awaitAll_all_fulfilled w (map listItem entities)) as [vs Hvs].
    { intros task Htask. apply in_map_iff in Htask as (k & <- & Hk). auto. }
    exists vs. now rewrite Hout, Hvs.
  - intros [vms Hvms] k Hk.
    pose proof (Hitems vms Hvms) as HF. clear - HF Hk.
    induction HF as [| k' vm entities vms Hvm _ IH]; [contradiction|].
    destruct Hk as [<- | Hk]; eauto.
  - intros vms Hvms. eapply Forall2_impl; [| exact (Hitems vms Hvms)].
    intros k vm Hvm. destruct (listItem_fulfilled w k Hvm) as (image & cover & H).
    exists image, cover. exact H.
Qed.

Lemma listing_follows_witness :
  exists vms,
    outcome (getLatestManga (servingWorld (pageOf 3))) = Fulfilled (Arr vms).
Proof.
  assert (Hcovers : latestCovers (servingWorld (pageOf 3)) (pageOf 3)).
  { exists (collection (pageOf 3)), (Arr [Str "m1"; Str "m2"; Str "m3"]),
      (collection (pageOf 3)).
    repeat split; vm_compute; reflexivity. }
  apply (proj1 (proj1 (@listing_follows_cover_page (servingWorld (pageOf 3)) (pageOf 3)
                         Hcovers))).
  intros k Hk. simpl in Hk.
  destruct Hk as [<- | [<- | [<- | []]]]; eexists; vm_compute; reflexivity.
Defined.

(** ** The order of arrival *)

Lemma await_withSettleOrder {A} (w : World) (order : list nat) (m : Async A) :
  await (withSettleOrder w order) m = await w m.
Proof.
  induction m as [a | e | label e next IH | url resume IH]; simpl.
  - reflexivity.
  - reflexivity.
  - now rewrite IH.
  - now rewrite IH.
Qed.

Lemma withSettleOrder_self (w : World) : withSettleOrder w (settleOrder w) = w.
Proof. destruct w; reflexivity. Qed.

Lemma Forall2_outcomes_agree {A} (w : World) (tasks : list (Async A)) (vs vs' : list A) :
  Forall2 (fun task v => outcome (await w task) = Fulfilled v) tasks vs ->
  Forall2 (fun task v => outcome (await w task) = Fulfilled v) tasks vs' ->
  vs = vs'.
Proof.
  intros H. revert vs'. induction H as [| task v tasks vs Hv _ IH]; intros vs' H';
    inversion H'; subst; [reflexivity|].
  f_equal; [congruence | auto].
Qed.

(** A batch that fulfils does so with the same values in every order of
    arrival. *)
Lemma awaitAll_order_free {A} (w : World) (order : list nat) (tasks : list (Async A))
      (vs : list A) :
  outcome (awaitAll w tasks) = Fulfilled vs ->
  outcome (awaitAll (withSettleOrder w order) tasks) = Fulfilled vs.
Proof.
  intros H. apply awaitAll_fulfilled in H.
  assert (Hall : forall task, In task tasks ->
                  exists v, outcome (await (withSettleOrder w order) task) = Fulfilled v).
  { intros task Hin. rewrite await_withSettleOrder.
    clear - H Hin. induction H as [| t v tasks vs Hv _ IH]; [contradiction|].
    destruct Hin as [<- | Hin]; eauto. }
  destruct (awaitAll_all_fulfilled (withSettleOrder w order) tasks Hall) as [vs' Hvs'].
  rewrite Hvs'. f_equal. apply awaitAll_fulfilled in Hvs'.
  apply (@Forall2_outcomes_agree _ w tasks); [| exact H].
  eapply Forall2_impl; [| exact Hvs'].
  intros task v Hv. cbv beta in Hv. now rewrite await_withSettleOrder in Hv.
Qed.

Lemma resolveListing_order_free (w : World) (order : list nat) (listing result : Value) :
  outcome (resolveListing w listing) = Fulfilled result ->
  outcome (resolveListing (withSettleOrder w order) listing) = Fulfilled result.
Proof.
  unfold resolveListing. intros H.
  apply thenRun_fulfilled_inv in H as (ids & Hids & H).
  apply thenRun_fulfilled_inv in H as (covers & Hcovers & H).
  apply thenRun_fulfilled_inv in H as (tasks & Htasks & H).
  apply thenRun_fulfilled_inv in H as (vms & Hall & H).
  erewrite thenRun_fulfilled by exact Hids.
  erewrite thenRun_fulfilled by (rewrite await_withSettleOrder; exact Hcovers).
  erewrite thenRun_fulfilled by exact Htasks.
  erewrite thenRun_fulfilled by (apply awaitAll_order_free; exact Hall).
  exact H.
Qed.

Lemma call_order_free (w : World) (a : Aggregator) (order : list nat) (result : Value) :
  outcome (call w a) = Fulfilled result ->
  outcome (call (withSettleOrder w order) a) = Fulfilled result.
Proof.
  destruct a as [| search | |]; simpl call.
  - unfold getLatestManga. rewrite !logAndRethrow_outcome. intros H.
    apply thenRun_fulfilled_inv in H as (listing & Hlisting & H).
    erewrite thenRun_fulfilled by (rewrite await_withSettleOrder; exact Hlisting).
    now apply resolveListing_order_free.
  - unfold searchManga. rewrite !logAndRethrow_outcome. intros H.
    apply thenRun_fulfilled_inv in H as (listing & Hlisting & H).
    erewrite thenRun_fulfilled by (rewrite await_withSettleOrder; exact Hlisting).
    now apply resolveListing_order_free.
  - unfold Carousel. rewrite !logAndRethrow_outcome. cbv zeta. intros H.
    apply thenRun_fulfilled_inv in H as (req & Hreq & H).
    apply thenRun_fulfilled_inv in H as (ids & Hids & H).
    apply thenRun_fulfilled_inv in H as (manga & Hmanga & H).
    apply thenRun_fulfilled_inv in H as (selected & Hsel & H).
    apply thenRun_fulfilled_inv in H as (vms & Hall & H).
    change (floorRandomTimes (withSettleOrder w order) 200)
      with (floorRandomTimes w 200).
    erewrite thenRun_fulfilled by (rewrite await_withSettleOrder; exact Hreq).
    erewrite thenRun_fulfilled by exact Hids.
    erewrite thenRun_fulfilled by (rewrite await_withSettleOrder; exact Hmanga).
    erewrite thenRun_fulfilled by exact Hsel.
    erewrite thenRun_fulfilled by (apply awaitAll_order_free; exact Hall).
    exact H.
  - unfold fetchTopListings. rewrite !logAndRethrow_outcome. intros H.
    apply thenRun_fulfilled_inv in H as (batch & Hbatch & H). cbv zeta in H.
    apply thenRun_fulfilled_inv in H as (ids1 & Hids1 & H).
    apply thenRun_fulfilled_inv in H as (popular & Hpopular & H).
    apply thenRun_fulfilled_inv in H as (ids2 & Hids2 & H).
    apply thenRun_fulfilled_inv in H as (topRated & HtopRated & H).
    apply thenRun_fulfilled_inv in H as (ids3 & Hids3 & H).
    apply thenRun_fulfilled_inv in H as (topRead & HtopRead & H).
    erewrite thenRun_fulfilled by (apply awaitAll_order_free; exact Hbatch). cbv zeta.
    erewrite thenRun_fulfilled by exact Hids1.
    erewrite thenRun_fulfilled by (rewrite await_withSettleOrder; exact Hpopular).
    erewrite thenRun_fulfilled by exact Hids2.
    erewrite thenRun_fulfilled by (rewrite await_withSettleOrder; exact HtopRated).
    erewrite thenRun_fulfilled by exact Hids3.
    erewrite thenRun_fulfilled by (rewrite await_withSettleOrder; exact HtopRead).
    exact H.
Qed.

(** X12: the order in which the replies of a batch arrive never decides
    whether an aggregator call succeeds, nor what it returns: a call
    that fulfils with some result fulfils with the same result under
    every other order of arrival, and a call that rejects rejects under
    every order (the order can only decide which of several errors is
    reported). *)
Theorem arrival_order_is_immaterial (w : World) (a : Aggregator) (order : list nat) :
  (forall result,
      outcome (call w a) = Fulfilled result
      <-> outcome (call (withSettleOrder w order) a) = Fulfilled result)
  /\ ((exists e, outcome (call w a) = Rejected e)
      <-> exists e, outcome (call (withSettleOrder w order) a) = Rejected e).
Proof.
  assert (Hback : forall result,
             outcome (call (withSettleOrder w order) a) = Fulfilled result ->
             outcome (call w a) = Fulfilled result).
  { intros result H.
    apply (call_order_free (withSettleOrder w order) a (settleOrder w)) in H.
    change (withSettleOrder (withSettleOrder w order) (settleOrder w))
      with (withSettleOrder w (settleOrder w)) in H.
    now rewrite withSettleOrder_self in H. }
  split; [split; [apply call_order_free | apply Hback]|].
  assert (Hcases : forall s : Settlement Value,
             (exists result, s = Fulfilled result) \/ (exists e, s = Rejected e))
    by (intros [result | e]; eauto).
  split; intros [e He].
  - destruct (Hcases (outcome (call (withSettleOrder w order) a))) as [[result E] | H];
      [| exact H].
    apply Hback in E. congruence.
  - destruct (Hcases (outcome (call w a))) as [[result E] | H]; [| exact H].
    apply (call_order_free w a order) in E. congruence.
Qed.

Lemma arrival_order_witness :
  outcome (call (withSettleOrder (twoFailuresWorld []) [2; 1; 0]) TopListings)
  = Rejected (Err "HTTP error! Status: 404")
  /\ exists e, outcome (call (twoFailuresWorld []) TopListings) = Rejected e.
Proof.
  split; [vm_compute; reflexivity|].
  apply (proj2 (proj2 (arrival_order_is_immaterial (twoFailuresWorld []) TopListings
                         [2; 1; 0]))).
  eexists. vm_compute. reflexivity.
Defined.

(** ** The carousel page *)

Lemma carousel_outcome (w : World) (manga : Value) :
  carouselCovers w manga ->
  outcome (Carousel w)
  = match getRandomManga w manga 6 with
    | inl e => Rejected e
    | inr selected =>
        match outcome (awaitAll w (map carouselItem selected)) with
        | Fulfilled vms => Fulfilled (Arr vms)
        | Rejected e => Rejected e
        end
    end.
Proof.
  intros (req & mangaIds & Hreq & Hids & Hmanga).
  unfold Carousel. rewrite logAndRethrow_outcome. cbv zeta.
  erewrite thenRun_fulfilled by exact Hreq.
  erewrite thenRun_fulfilled by (rewrite Hids; reflexivity).
  erewrite thenRun_fulfilled by exact Hmanga.
  rewrite thenRun_outcome, liftRun_outcome.
  destruct (getRandomManga w manga 6) as [e | selected]; [reflexivity|].
  rewrite thenRun_outcome.
  destruct (outcome (awaitAll w (map carouselItem selected))); reflexivity.
Qed.

(** X13: whatever the size of the page its cover lookup returns,
    [Carousel] never returns more than six view models: a fulfilled
    call returns six when the page holds at least six entities and one
    per entity when it holds fewer. *)
Theorem carousel_takes_at_most_six (w : World) (manga : Value) (page : list Value)
        (result : Value) :
  carouselCovers w manga ->
  getOpt manga "data" = Arr page ->
  outcome (Carousel w) = Fulfilled result ->
  exists vms,
    result = Arr vms
    /\ List.length vms = Nat.min 6 (List.length page)
    /\ List.length vms <= 6.
Proof.
  intros Hcovers Hdata Hres. rewrite (carousel_outcome Hcovers) in Hres.
  unfold getRandomManga in Hres. rewrite Hdata in Hres.
  unfold ok in Hres. cbv iota beta in Hres.
  destruct (outcome (awaitAll w (map carouselItem (slice0 6 (sortRandomly w page)))))
    as [vms | e] eqn:E; [| discriminate].
  inversion Hres; subst result. exists vms. split; [reflexivity|].
  apply awaitAll_fulfilled, Forall2_length in E.
  rewrite length_map in E. rewrite <- E. unfold slice0.
  rewrite length_firstn, (Permutation_length (sortRandomly_perm w page)).
  split; [reflexivity | apply Nat.le_min_l].
Qed.

Lemma carousel_at_most_six_witness :
  exists vms,
    outcome (Carousel (servingWorld (pageOf 2))) = Fulfilled (Arr vms)
    /\ List.length vms = 2.
Proof.
  pose (result := match outcome (Carousel (servingWorld (pageOf 2))) with
                  | Fulfilled v => v
                  | Rejected _ => Undefined
                  end).
  assert (Hrun : outcome (Carousel (servingWorld (pageOf 2))) = Fulfilled result)
    by (vm_compute; reflexivity).
  destruct (@carousel_takes_at_most_six (servingWorld (pageOf 2))
              (collection (pageOf 2)) (pageOf 2) result) as (vms & Hres & Hlen & _).
  - exists (collection (pageOf 2)), (Arr [Str "m1"; Str "m2"]).
    repeat split; vm_compute; reflexivity.
  - reflexivity.
  - exact Hrun.
  - exists vms. split; [rewrite Hrun, Hres; reflexivity | exact Hlen].
Defined.

(** X14: when the cover lookup of [Carousel] resolves to [null], or to
    a value whose [data] is missing or [null], the guarded sort yields
    [undefined] and the unguarded [slice] on it throws: the call
    rejects with a [TypeError], logged under [Error in Carousel:],
    where [getLatestManga] in the same situation returns the empty
    array. *)
Theorem carousel_rejects_without_page (w : World) (manga : Value) :
  carouselCovers w manga ->
  isNullish (getOpt manga "data") = true ->
  let e := TypeError "Cannot read properties of nullish value (reading 'slice')" in
  outcome (Carousel w) = Rejected e
  /\ exists before, trace (Carousel w) = (before ++ [Logged "Error in Carousel:" e])%list.
Proof.
  intros Hcovers Hdata e.
  assert (Hout : outcome (Carousel w) = Rejected e).
  { rewrite (carousel_outcome Hcovers). unfold getRandomManga.
    destruct (getOpt manga "data"); try discriminate; reflexivity. }
  split; [exact Hout|].
  unfold Carousel in *. rewrite logAndRethrow_outcome in Hout.
  destruct (logAndRethrow_rejected "Error in Carousel:" _ Hout) as [_ Ht].
  rewrite Ht. eauto.
Qed.

Lemma carousel_without_page_witness :
  outcome (Carousel (quietWorld (fun _ => reply 200 "OK" (Some Null) "")))
  = Rejected (TypeError "Cannot read properties of nullish value (reading 'slice')").
Proof.
  refine (proj1 (@carousel_rejects_without_page
                   (quietWorld (fun _ => reply 200 "OK" (Some Null) "")) Null _ eq_refl)).
  exists Null, Undefined. repeat split; vm_compute; reflexivity.
Defined.

(** ** What is requested *)

Lemma prefix_append (a b : string) : String.prefix a (a ++ b) = true.
Proof.
  induction a as [| c a IH]; simpl; [now destruct b|].
  destruct (ascii_dec c c) as [_ | Hne]; [exact IH | congruence].
Qed.

Lemma requestUrl_api (endpoint : string) (params : list (string * Value)) (url : string) :
  requestUrl endpoint params = ok url -> isApiUrl url.
Proof.
  unfold isApiUrl. intros H.
  destruct (serializeParameters params) as [e | s] eqn:Es.
  - unfold requestUrl in H. rewrite Es in H. discriminate.
  - rewrite (requestUrl_shape endpoint params Es) in H.
    assert (Hinj : forall a b : string, @ok string a = ok b -> a = b)
      by (intros a b E; injection E; auto).
    apply Hinj in H. rewrite <- H.
    destruct s; rewrite ?append_assoc; apply prefix_append.
Qed.

Lemma fetchJson_requests (w : World) (endpoint : string) (params : list (string * Value)) :
  requests (observed (await w (fetchJson endpoint params)))
  = match requestUrl endpoint params with
    | inr url => [url]
    | inl _ => []
    end.
Proof.
  destruct (requestUrl endpoint params) as [e | url] eqn:E.
  - unfold fetchJson. rewrite E. reflexivity.
  - rewrite (fetchJson_run w _ _ E).
    destruct (http w url) as [| res]; [reflexivity|].
    destruct (isOk res); [destruct (json res) |]; reflexivity.
Qed.

Lemma within_fetchJson (w : World) (endpoint : string) (params : list (string * Value)) :
  requestsWithin isApiUrl 1 (await w (fetchJson endpoint params)).
Proof.
  unfold requestsWithin. rewrite fetchJson_requests.
  destruct (requestUrl endpoint params) as [e | url] eqn:E; simpl.
  - split; [constructor | lia].
  - split; [| lia]. constructor; [| constructor]. exact (requestUrl_api _ _ E).
Qed.

Lemma within_liftRun {A} (P : string -> Prop) (c : Completion A) :
  requestsWithin P 0 (liftRun c).
Proof. destruct c; split; simpl; auto. Qed.

Lemma within_thenRun {A B} (P : string -> Prop) (n m : nat) (r : Run A) (f : A -> Run B) :
  requestsWithin P n r ->
  (forall a, requestsWithin P m (f a)) ->
  requestsWithin P (n + m) (thenRun r f).
Proof.
  unfold requestsWithin, observed. intros [HP Hn] Hf.
  rewrite requests_app in HP, Hn. rewrite Forall_app in HP. rewrite length_app in Hn.
  unfold thenRun. destruct (outcome r) as [a | e]; cbn [trace late].
  - destruct (Hf a) as [HPa Hna].
    rewrite requests_app in HPa, Hna. rewrite Forall_app in HPa.
    rewrite length_app in Hna.
    rewrite !requests_app, !Forall_app, !length_app. intuition lia.
  - rewrite requests_app, Forall_app, length_app. intuition lia.
Qed.

Lemma within_logAndRethrow {A} (P : string -> Prop) (n : nat) (label : string) (r : Run A) :
  requestsWithin P n r -> requestsWithin P n (logAndRethrow label r).
Proof. unfold requestsWithin. now rewrite requests_logAndRethrow. Qed.

(** X15: [fetchTopListings] never touches the image host: in every
    run, fulfilled or not, it makes at most six requests (the three
    rankings and at most one cover lookup for each) and every one of
    them is for a URL under the API base URL. *)
Theorem top_listings_request_api_only (w : World) :
  requestsWithin isApiUrl 6 (fetchTopListings w).
Proof.
  unfold fetchTopListings. apply within_logAndRethrow.
  apply (@within_thenRun _ _ isApiUrl 3 3).
  { unfold requestsWithin. rewrite top_listings_requests.
    split; [| simpl; lia].
    repeat constructor; reflexivity. }
  intros batch. cbv zeta.
  apply (@within_thenRun _ _ isApiUrl 0 3); [apply within_liftRun|]. intros ids1.
  apply (@within_thenRun _ _ isApiUrl 1 2); [apply within_fetchJson|]. intros popular.
  apply (@within_thenRun _ _ isApiUrl 0 2); [apply within_liftRun|]. intros ids2.
  apply (@within_thenRun _ _ isApiUrl 1 1); [apply within_fetchJson|]. intros topRated.
  apply (@within_thenRun _ _ isApiUrl 0 1); [apply within_liftRun|]. intros ids3.
  apply (@within_thenRun _ _ isApiUrl 1 0); [apply within_fetchJson|]. intros topRead.
  apply within_liftRun.
Qed.

Lemma listItem_finish_requests (w : World) (k : Value) :
  requests (trace (finish w (snd (start (listItem k))))) = [].
Proof.
  unfold listItem. destruct (coverUrl k) as [e | image]; [reflexivity|].
  simpl. destruct (http w image) as [| res]; [reflexivity|].
  simpl. destruct (isOk res); reflexivity.
Qed.

Lemma listItem_issued (entities : list Value) (images : list string) :
  sequence (map coverUrl entities) = ok images ->
  requests (flat_map fst (map start (map listItem entities))) = images.
Proof.
  revert images. induction entities as [| k entities IH]; simpl; intros images H.
  - inversion H. reflexivity.
  - destruct (coverUrl k) as [e | image] eqn:Ek; [discriminate|].
    destruct (sequence (map coverUrl entities)) as [e | rest] eqn:Erest; [discriminate|].
    inversion H; subst images. rewrite requests_app, (IH rest eq_refl).
    unfold listItem. rewrite Ek. reflexivity.
Qed.

Lemma thenRun_observed {A B} (r : Run A) (f : A -> Run B) (a : A) :
  outcome r = Fulfilled a -> late r = [] ->
  observed (thenRun r f) = (observed r ++ observed (f a))%list.
Proof.
  intros Ho Hl. rewrite (thenRun_step _ _ Ho). unfold observed. simpl.
  rewrite Hl. simpl. now rewrite app_nil_r, app_assoc.
Qed.

(** X16: past the cover lookup, [getLatestManga] requests one image for
    every entity of the page, in page order and each exactly once,
    whether or not the call goes on to fulfil: an image that fails
    does not keep the others from being requested, and none is
    requested again. *)
Theorem one_image_request_per_entity (w : World) (entities : list Value)
        (images : list string) :
  latestCovers w entities ->
  sequence (map coverUrl entities) = ok images ->
  exists lookup,
    isApiUrl lookup
    /\ requests (observed (getLatestManga w)) = latestUrl :: lookup :: images.
Proof.
  intros (listing & ids & covers & Hlisting & Hids & Hcovers & Hdata) Himages.
  destruct (requestUrl "manga" (coversParams ids descendingByUpdate (Num 0) (Num 100)))
    as [e | lookup] eqn:Elookup.
  { unfold fetchCovers, fetchJson in Hcovers. fold (coversParams ids descendingByUpdate (Num 0) (Num 100)) in Hcovers.
    rewrite Elookup in Hcovers. discriminate. }
  exists lookup. split; [exact (requestUrl_api _ _ Elookup)|].
  unfold getLatestManga. rewrite requests_logAndRethrow.
  rewrite (thenRun_observed _ _ Hlisting (await_late _ _)), requests_app.
  unfold observed at 1. rewrite await_late, app_nil_r, (latest_fulfilled_trace w Hlisting).
  unfold resolveListing. rewrite Hids.
  rewrite (@thenRun_observed _ _ (liftRun (ok ids)) _ ids eq_refl eq_refl).
  rewrite (thenRun_observed _ _ Hcovers (await_late _ _)), !requests_app.
  unfold listTasks. rewrite Hdata.
  rewrite (@thenRun_observed _ _ (liftRun (ok (map listItem entities))) _ _ eq_refl eq_refl).
  rewrite requests_app.
  assert (Hbatch : forall (r : Run (list Value)) (f : list Value -> Run Value),
             (forall vms, observed (f vms) = []) ->
             requests (observed (thenRun r f)) = requests (observed r)).
  { intros r f Hf. unfold thenRun, observed.
    destruct (outcome r) as [vms | e']; cbn [trace late]; [| reflexivity].
    specialize (Hf vms). unfold observed in Hf.
    apply app_eq_nil in Hf as [-> ->]. now rewrite !app_nil_r. }
  rewrite Hbatch by reflexivity.
  rewrite awaitAll_requests, (listItem_issued entities Himages).
  - change (fetchCovers ids descendingByUpdate (Num 0) (Num 100))
      with (fetchJson "manga" (coversParams ids descendingByUpdate (Num 0) (Num 100))).
    rewrite fetchJson_requests, Elookup. reflexivity.
  - intros task Htask. apply in_map_iff in Htask as (k & <- & _).
    apply listItem_finish_requests.
Qed.

Lemma one_image_request_witness :
  exists lookup,
    isApiUrl lookup
    /\ requests (observed (getLatestManga (missingImageWorld (pageOf 3) "m2")))
       = [latestUrl; lookup;
          "https://uploads.mangadex.org/covers/m1/x.jpg.256.jpg";
          "https://uploads.mangadex.org/covers/m2/x.jpg.256.jpg";
          "https://uploads.mangadex.org/covers/m3/x.jpg.256.jpg"].
Proof.
  refine (@one_image_request_per_entity (missingImageWorld (pageOf 3) "m2") (pageOf 3)
            _ _ _).
  - exists (collection (pageOf 3)), (Arr [Str "m1"; Str "m2"; Str "m3"]),
      (collection (pageOf 3)).
    repeat split; vm_compute; reflexivity.
  - vm_compute. reflexivity.
Defined.

(** ** The carousel component *)

Lemma advanceTarget_cases (s cw sw : Z) :
  (Card.advanceTarget s cw sw = s + cw /\ s + cw < sw - cw
   \/ Card.advanceTarget s cw sw = 0 /\ sw - cw <= s + cw)%Z.
Proof.
  unfold Card.advanceTarget. destruct (Z.ltb_spec (s + cw) (sw - cw)); auto.
Qed.

(** X17: the timer never scrolls to the last slide.  Whatever the
    position, the target of the interval callback is either the origin
    or a position strictly before the maximal scroll offset; so on a
    strip of [n >= 2] slides of equal width, started at the origin and
    left to the timer, the position after [k] ticks is slide
    [k mod (n - 1)]: the timer cycles through the first [n - 1] slides
    and wraps to the first one instead of showing the last. *)
Theorem auto_advance_skips_last_slide (n cw : Z) (k : nat) :
  (2 <= n)%Z -> (0 < cw)%Z ->
  let tick := fun s => Card.advanceTarget s cw (n * cw) in
  Nat.iter k tick 0%Z = (cw * (Z.of_nat k mod (n - 1)))%Z
  /\ Nat.iter k tick 0%Z <> ((n - 1) * cw)%Z
  /\ forall s, tick s <> ((n - 1) * cw)%Z.
Proof.
  intros Hn Hcw tick.
  assert (Hnever : forall s, tick s <> ((n - 1) * cw)%Z).
  { intros s. unfold tick.
    destruct (advanceTarget_cases s cw (n * cw)) as [[-> H] | [-> H]]; nia. }
  assert (Hpos : Nat.iter k tick 0%Z = (cw * (Z.of_nat k mod (n - 1)))%Z).
  { induction k as [| k IH].
    - simpl. rewrite Z.mod_0_l by lia. lia.
    - change (Nat.iter (S k) tick 0%Z) with (tick (Nat.iter k tick 0%Z)). rewrite IH.
      set (j := (Z.of_nat k mod (n - 1))%Z).
      assert (Hj : (0 <= j < n - 1)%Z) by (apply Z.mod_pos_bound; lia).
      pose proof (Z.div_mod (Z.of_nat k) (n - 1) ltac:(lia)) as Hk. fold j in Hk.
      unfold tick.
      destruct (advanceTarget_cases (cw * j) cw (n * cw)) as [[-> H] | [-> H]].
      + assert (Hnext : (j + 1 < n - 1)%Z) by nia.
        rewrite <- (Z.mod_unique (Z.of_nat (S k)) (n - 1) (Z.of_nat k / (n - 1)) (j + 1));
          [lia | left; lia | lia].
      + assert (Hnext : (j + 1 = n - 1)%Z) by nia.
        rewrite <- (Z.mod_unique (Z.of_nat (S k)) (n - 1) (Z.of_nat k / (n - 1) + 1) 0);
          [lia | left; lia | nia]. }
  split; [exact Hpos|]. split; [| exact Hnever].
  destruct k as [| k]; [simpl; nia|].
  change (Nat.iter (S k) tick 0%Z) with (tick (Nat.iter k tick 0%Z)). apply Hnever.
Qed.

Lemma auto_advance_witness :
  Nat.iter 5 (fun s => Card.advanceTarget s 1280 (6 * 1280)) 0%Z = 0%Z
  /\ Nat.iter 4 (fun s => Card.advanceTarget s 1280 (6 * 1280)) 0%Z = 5120%Z.
Proof.
  split.
  - exact (proj1 (@auto_advance_skips_last_slide 6 1280 5 ltac:(lia) ltac:(lia))).
  - exact (proj1 (@auto_advance_skips_last_slide 6 1280 4 ltac:(lia) ltac:(lia))).
Defined.




Lemma cover_data_uri_parts (w : World) (image uri : string) :
  outcome (await w (fetchCover image)) = Fulfilled uri ->
  exists payload, uri = dataUriPrefix ++ payload.
Proof.
  rewrite fetchCover_run.
  destruct (http w image) as [| res]; simpl; [discriminate|].
  destruct (isOk res); simpl; intros H; inversion H. eauto.
Qed.

(** X19: the cards never show what [Carousel] computed.  The view
    models [Carousel] returns keep title, tags, status and description
    at the top level and have no [attributes] field, while the card
    reads all of them through [manga?.attributes]: for every item of a
    fulfilled call the title, summary, rating and demographic a card
    reads are [undefined] and no genre is listed; only the cover, a
    data URI, and the type badge come through. *)
Theorem carousel_cards_lack_attributes (w : World) (result : Value) :
  outcome (Carousel w) = Fulfilled result ->
  exists vms,
    result = Arr vms
    /\ Forall (fun vm =>
                 getOpt vm "attributes" = Undefined
                 /\ Card.title vm = ok Undefined
                 /\ Card.summary vm = ok Undefined
                 /\ Card.genres vm = ok None
                 /\ Card.rating vm = Undefined
                 /\ Card.demographic vm = Undefined
                 /\ (exists payload,
                        Card.cover vm = ok (Str (dataUriPrefix ++ payload)))
                 /\ exists entity held,
                      carouselTitle entity = ok held
                      /\ getOpt vm "title" = held
                      /\ Card.badge vm = getOpt entity "type") vms.
Proof.
  intros H.
  destruct (results_are_view_models w result) as (_ & _ & Hcar).
  destruct (Hcar H) as (entities & vms & -> & Hbuilt).
  exists vms. split; [reflexivity|].
  clear H Hcar. induction Hbuilt as [| entity vm entities vms Hvm _ IH]; constructor;
    [| exact IH].
  destruct (carouselItem_fulfilled w entity Hvm)
    as (tags & image & cover & held & r & d & s & ds & _ & Hcover & Hheld & _ & ->).
  destruct (@cover_data_uri_parts w image cover Hcover) as [payload ->].
  repeat split; try reflexivity.
  - exists payload. reflexivity.
  - exists entity, held. repeat split; auto.
Qed.

Lemma carousel_cards_witness :
  exists vms,
    outcome (Carousel (servingWorld (pageOf 2))) = Fulfilled (Arr vms)
    /\ Forall (fun vm => Card.title vm = ok Undefined
                         /\ getOpt vm "title" = Str "Foo") vms.
Proof.
  pose (result := match outcome (Carousel (servingWorld (pageOf 2))) with
                  | Fulfilled v => v
                  | Rejected _ => Undefined
                  end).
  assert (Hrun : outcome (Carousel (servingWorld (pageOf 2))) = Fulfilled result)
    by (vm_compute; reflexivity).
  destruct (@carousel_cards_lack_attributes (servingWorld (pageOf 2)) result Hrun)
    as (vms & Hres & Hcards).
  exists vms. split; [rewrite Hrun, Hres; reflexivity|].
  assert (Hvms : vms = match result with Arr l => l | _ => [] end)
    by (rewrite Hres; reflexivity).
  rewrite Hvms in *. clear Hvms Hres.
  vm_compute. repeat constructor.
Defined.

(** ** The top listings *)

Lemma rankedIds_inv (ranking ids : Value) :
  rankedIds ranking = ok ids ->
  exists items, getOpt ranking "data" = Arr items /\ idsOf items = ok ids.
Proof.
  unfold rankedIds, get, getOpt.
  destruct ranking as [| | b | n | s | l | props]; try discriminate.
  destruct (lookup "data" props) as [[| | b | n | s | items | ps] |];
    try discriminate.
  cbn [andThen ok arrayReceiver]. eauto.
Qed.

Lemma get_ok_inv (v x : Value) (name : string) :
  get v name = ok x -> isNullish v = false /\ x = getOpt v name.
Proof.
  unfold get, getOpt.
  destruct v as [| | b | n | s | l | props]; try discriminate;
    try (intros H; inversion H; auto).
  destruct (lookup name props); inversion H; auto.
Qed.

Lemma top_listings_fulfilled_inv (w : World) (result : Value) :
  outcome (fetchTopListings w) = Fulfilled result ->
  exists followed rated read popular topRated topRead,
    outcome (awaitAll w topListingQueries) = Fulfilled [followed; rated; read]
    /\ rankingLookup w followed popular
    /\ rankingLookup w rated topRated
    /\ rankingLookup w read topRead
    /\ result = Obj [("popular", getOpt popular "data");
                     ("topRated", getOpt topRated "data");
                     ("topRead", getOpt topRead "data")].
Proof.
  unfold fetchTopListings. rewrite logAndRethrow_outcome. intros H.
  apply thenRun_fulfilled_inv in H as (batch & Hbatch & H).
  pose proof (awaitAll_fulfilled _ _ Hbatch) as Hshape. unfold topListingQueries in Hshape.
  inversion Hshape as [| ? followed ? l1 _ H1]; subst.
  inversion H1 as [| ? rated ? l2 _ H2]; subst.
  inversion H2 as [| ? read ? l3 _ H3]; subst.
  inversion H3; subst. clear Hshape H1 H2 H3.
  cbv beta zeta in H. cbn [nth] in H.
  apply thenRun_fulfilled_inv in H as (ids1 & Hids1 & H).
  apply thenRun_fulfilled_inv in H as (popular & Hpopular & H).
  apply thenRun_fulfilled_inv in H as (ids2 & Hids2 & H).
  apply thenRun_fulfilled_inv in H as (topRated & HtopRated & H).
  apply thenRun_fulfilled_inv in H as (ids3 & Hids3 & H).
  apply thenRun_fulfilled_inv in H as (topRead & HtopRead & H).
  apply liftRun_fulfilled_inv in H.
  apply liftRun_fulfilled_inv, rankedIds_inv in Hids1 as (items1 & Hd1 & Hi1).
  apply liftRun_fulfilled_inv, rankedIds_inv in Hids2 as (items2 & Hd2 & Hi2).
  apply liftRun_fulfilled_inv, rankedIds_inv in Hids3 as (items3 & Hd3 & Hi3).
  destruct (get popular "data") as [e | d1] eqn:G1; [discriminate|].
  destruct (get topRated "data") as [e | d2] eqn:G2; [discriminate|].
  destruct (get topRead "data") as [e | d3] eqn:G3; [discriminate|].
  apply get_ok_inv in G1 as [N1 ->], G2 as [N2 ->], G3 as [N3 ->].
  cbn [andThen ok] in H. inversion H; subst result.
  exists followed, rated, read, popular, topRated, topRead.
  split; [exact Hbatch|].
  repeat split; try (do 2 eexists; repeat split; eassumption).
Qed.

(** X20: [fetchTopListings] fulfils only along one path: each of the
    three rankings answers with a [data] array whose entries all have
    an [id] to read, each of the three cover lookups made for those ids
    answers with a value other than [null], and the result is the
    object with exactly the keys [popular], [topRated] and [topRead],
    holding the [data] of the three lookups as they came: the raw
    entities, not view models. *)
Theorem top_listings_result (w : World) (result : Value) :
  outcome (fetchTopListings w) = Fulfilled result ->
  exists rankings lookups,
    Forall2 (fun query ranking => outcome (await w query) = Fulfilled ranking)
            topListingQueries rankings
    /\ Forall2 (rankingLookup w) rankings lookups
    /\ result = Obj (combine ["popular"; "topRated"; "topRead"]
                             (map (fun lookup => getOpt lookup "data") lookups)).
Proof.
  intros H.
  destruct (top_listings_fulfilled_inv w H)
    as (followed & rated & read & popular & topRated & topRead
        & Hbatch & L1 & L2 & L3 & ->).
  exists [followed; rated; read], [popular; topRated; topRead].
  split; [exact (awaitAll_fulfilled _ _ Hbatch)|].
  split; [repeat constructor; assumption | reflexivity].
Qed.

Lemma top_listings_result_witness :
  outcome (fetchTopListings (servingWorld (pageOf 2)))
  = Fulfilled (Obj [("popular", Arr (pageOf 2));
                    ("topRated", Arr (pageOf 2));
                    ("topRead", Arr (pageOf 2))])
  /\ exists rankings lookups,
      Forall2 (rankingLookup (servingWorld (pageOf 2))) rankings lookups
      /\ List.length lookups = 3.
Proof.
  assert (Hrun : outcome (fetchTopListings (servingWorld (pageOf 2)))
                 = Fulfilled (Obj [("popular", Arr (pageOf 2));
                                   ("topRated", Arr (pageOf 2));
                                   ("topRead", Arr (pageOf 2))]))
    by (vm_compute; reflexivity).
  split; [exact Hrun|].
  destruct (@top_listings_result (servingWorld (pageOf 2)) _ Hrun)
    as (rankings & lookups & Hqueries & Hlookups & _).
  exists rankings, lookups. split; [exact Hlookups|].
  rewrite <- (Forall2_length Hlookups), <- (Forall2_length Hqueries). reflexivity.
Defined.

(** X21: a ranking that answers without a [data] array is fatal to
    [fetchTopListings].  Where [getLatestManga] reads the listing
    through [listing?.data] and survives a [null], here
    [reqTop.data.map] is unguarded: when the three rankings answer and
    one of them is [null] or has [data] missing or [null], the call
    rejects and logs the error under [Error in fetchTopListings:] last
    of all; when that ranking is the first one the error is a
    [TypeError] and no cover lookup is requested at all. *)
Theorem ranking_without_data_rejects (w : World) (batch : list Value) (ranking : Value) :
  outcome (awaitAll w topListingQueries) = Fulfilled batch ->
  In ranking batch ->
  isNullish (getOpt ranking "data") = true ->
  (exists e before,
      outcome (fetchTopListings w) = Rejected e
      /\ trace (fetchTopListings w)
         = (before ++ [Logged "Error in fetchTopListings:" e])%list)
  /\ (nth 0 batch Undefined = ranking ->
      (exists msg, outcome (fetchTopListings w) = Rejected (TypeError msg))
      /\ requests (observed (fetchTopListings w))
         = [rankedUrl "followedCount"; rankedUrl "rating"; rankedUrl "readingProgress"]).
Proof.
  intros Hbatch Hin Hdata. split.
  - destruct (outcome (fetchTopListings w)) as [result | e] eqn:E.
    + exfalso.
      destruct (top_listings_fulfilled_inv w E)
        as (followed & rated & read & popular & topRated & topRead
            & Hbatch' & L1 & L2 & L3 & _).
      rewrite Hbatch in Hbatch'. inversion Hbatch'; subst batch.
      assert (Hno : forall lookup, ~ rankingLookup w ranking lookup).
      { intros lookup (items & ids & Hd & _). rewrite Hd in Hdata. discriminate. }
      destruct Hin as [<- | [<- | [<- | []]]]; eapply Hno; eassumption.
    + unfold fetchTopListings in *. rewrite logAndRethrow_outcome in E.
      destruct (logAndRethrow_rejected "Error in fetchTopListings:" _ E) as [_ Htrace].
      eauto.
  - intros Hfirst.
    assert (Hids : exists msg, rankedIds (nth 0 batch Undefined) = inl (TypeError msg)).
    { rewrite Hfirst. revert Hdata. unfold rankedIds, get, getOpt.
      destruct ranking as [| | b | n | s | l | props]; cbn; eauto.
      destruct (lookup "data" props) as [[| | b | n | s | items | ps] |];
        cbn; try discriminate; eauto. }
    destruct Hids as [msg Hids].
    unfold fetchTopListings. rewrite requests_logAndRethrow, logAndRethrow_outcome.
    rewrite thenRun_step with (a := batch) by exact Hbatch. cbv beta zeta.
    rewrite Hids. cbn [liftRun]. rewrite thenRun_stop with (e := TypeError msg)
      by reflexivity.
    split; [eexists; reflexivity|].
    unfold observed; cbn [trace late outcome done]. rewrite !app_nil_r.
    exact (top_listings_requests w).
Qed.

Lemma ranking_without_data_witness :
  let w := quietWorld (fun url => reply 200 "OK" (Some Null) "") in
  (exists e, outcome (fetchTopListings w) = Rejected e)
  /\ requests (observed (fetchTopListings w))
     = [rankedUrl "followedCount"; rankedUrl "rating"; rankedUrl "readingProgress"].
Proof.
  intros w.
  assert (Hbatch : outcome (awaitAll w topListingQueries) = Fulfilled [Null; Null; Null])
    by (vm_compute; reflexivity).
  destruct (@ranking_without_data_rejects w [Null; Null; Null] Null Hbatch)
    as [(e & _ & He & _) Hfirst].
  - left. reflexivity.
  - reflexivity.
  - split; [exists e; exact He|]. exact (proj2 (Hfirst eq_refl)).
Defined.

(** ** What an item of the carousel must hold *)

Lemma get_inr_inv (v x : Value) (name : string) :
  get v name = inr x -> isNullish v = false /\ x = getOpt v name.
Proof. exact (@get_ok_inv v x name). Qed.

Lemma getPath3_inv (v x : Value) (a b c : string) :
  getPath v [a; b; c] = inr x ->
  isNullish v = false
  /\ isNullish (getOpt v a) = false
  /\ isNullish (getOptPath v [a; b]) = false
  /\ x = getOptPath v [a; b; c].
Proof.
  unfold getPath, getOptPath. cbn [fold_left andThen ok].
  destruct (get v a) as [e | va] eqn:Ea; cbn [andThen ok]; [discriminate|].
  destruct (get va b) as [e | vb] eqn:Eb; cbn [andThen ok]; [discriminate|].
  intros Ec.
  apply get_inr_inv in Ea as [Na ->], Eb as [Nb ->], Ec as [Nc ->]. auto.
Qed.

Lemma findCoverArt_inv (items : list Value) (found : Value) :
  findCoverArt items = inr found ->
  found = Undefined \/ (In found items /\ isCoverArt found = true).
Proof.
  induction items as [| t items IH]; cbn [findCoverArt].
  - intros H. inversion H. auto.
  - destruct (get t "type") as [e | type] eqn:Et; [discriminate|].
    cbn [andThen ok]. apply get_inr_inv in Et as [_ ->].
    destruct (strictEqStr (getOpt t "type") "cover_art") eqn:Ec.
    + intros H. inversion H; subst. right. split; [now left | exact Ec].
    + intros H. destruct (IH H) as [-> | [Hin Hc]]; [auto | right; split; [now right | exact Hc]].
Qed.

Lemma carouselCoverUrl_inv (manga : Value) (image : string) :
  carouselCoverUrl manga = inr image ->
  exists items t,
    getOpt manga "relationships" = Arr items
    /\ In t items
    /\ isCoverArt t = true
    /\ isNullish (getOpt t "attributes") = false.
Proof.
  unfold carouselCoverUrl.
  destruct (get manga "id") as [e | id] eqn:Eid; [discriminate|]. cbn [andThen ok].
  destruct (toString id) as [e | idText]; [discriminate|]. cbn [andThen ok].
  destruct (get manga "relationships") as [e | rel] eqn:Erel; [discriminate|].
  cbn [andThen ok]. apply get_inr_inv in Erel as [_ ->].
  destruct (getOpt manga "relationships") as [| | b | n | s | items | props];
    try discriminate.
  cbn [arrayReceiver andThen ok].
  destruct (findCoverArt items) as [e | found] eqn:Ef; [discriminate|]. cbn [andThen ok].
  destruct (getPath found ["attributes"; "fileName"]) as [e | fileName] eqn:En;
    [discriminate|].
  intros _. unfold getPath in En. cbn [fold_left andThen ok] in En.
  destruct (get found "attributes") as [e | attrs] eqn:Ea; [discriminate|].
  apply get_inr_inv in Ea as [Nf ->]. apply get_inr_inv in En as [Na _].
  destruct (findCoverArt_inv _ Ef) as [-> | [Hin Hc]]; [discriminate|].
  exists items, found. auto.
Qed.

(** X22: what [Carousel] demands of an entity.  Its item callback reads
    [attributes.title.en], [attributes.description.en] and the
    attributes of the cover-art relationship without guards, so an item
    fulfils only for an entity that has [attributes] with a [title] and
    a [description] other than [null], and a [relationships] array
    holding a cover-art entry that carries [attributes]. *)
Theorem carousel_item_requirements (w : World) (manga vm : Value) :
  outcome (await w (carouselItem manga)) = Fulfilled vm ->
  isNullish (getOpt manga "attributes") = false
  /\ isNullish (getOptPath manga ["attributes"; "title"]) = false
  /\ isNullish (getOptPath manga ["attributes"; "description"]) = false
  /\ exists items t,
      getOpt manga "relationships" = Arr items
      /\ In t items
      /\ isCoverArt t = true
      /\ isNullish (getOpt t "attributes") = false.
Proof.
  unfold carouselItem. intros H.
  peel_lift H. peel_lift H. peel_lift H. peel_await H.
  peel_lift H. peel_lift H. peel_lift H. peel_lift H. peel_lift H.
  match goal with
  | E : carouselTitle manga = inr _ |- _ =>
      unfold carouselTitle in E;
      destruct (getPath manga ["attributes"; "title"; "en"]) as [? | en] eqn:Etitle;
      [discriminate|]; clear E
  end.
  apply getPath3_inv in Etitle as (_ & Hattrs & Htitle & _).
  match goal with
  | E : getPath manga ["attributes"; "description"; "en"] = inr _ |- _ =>
      apply getPath3_inv in E as (_ & _ & Hdescription & _)
  end.
  match goal with
  | E : carouselCoverUrl manga = inr _ |- _ => apply carouselCoverUrl_inv in E as Hcover
  end.
  auto.
Qed.

Lemma carousel_item_witness :
  let manga := sampleManga "m1" [author; coverArt "x.jpg"] in
  exists items t,
    getOpt manga "relationships" = Arr items /\ In t items /\ isCoverArt t = true.
Proof.
  intros manga.
  pose (w := servingWorld [manga]).
  pose (vm := match outcome (await w (carouselItem manga)) with
              | Fulfilled v => v
              | Rejected _ => Undefined
              end).
  assert (Hrun : outcome (await w (carouselItem manga)) = Fulfilled vm)
    by (vm_compute; reflexivity).
  destruct (@carousel_item_requirements w manga vm Hrun)
    as (_ & _ & _ & items & t & Hrel & Hin & Hc & _).
  exists items, t. auto.
Defined.

(** X23: the title chain of [Carousel] is one link shorter than the one
    of [getLatestManga] and [searchManga].  For an entity whose title
    has no usable [en] and [ja-ro] entries (absent, [null] or empty),
    the listing falls through to the [ja] entry, whatever it is, while
    [Carousel] stops at the [ja-ro] entry and yields that unusable
    value; with a usable [en] or [ja-ro] entry the two agree. *)
Theorem carousel_title_lacks_ja (k : Value) :
  let names := getOptPath k ["attributes"; "title"] in
  isNullish names = false ->
  (truthy (getOpt names "en") = false ->
   truthy (getOpt names "ja-ro") = false ->
   titleOf k = getOpt names "ja"
   /\ carouselTitle k = ok (getOpt names "ja-ro"))
  /\ (truthy (orElse (getOpt names "en") (getOpt names "ja-ro")) = true ->
      carouselTitle k = ok (titleOf k)).
Proof.
  intros names Hnames.
  assert (Hen : getPath k ["attributes"; "title"; "en"] = ok (getOpt names "en")).
  { subst names. unfold getPath, getOptPath in *. cbn [fold_left andThen ok] in *.
    destruct k as [| | b | n | s | l | props]; try discriminate.
    rewrite get_object. cbn [andThen ok].
    rewrite get_nonnullish.
    - cbn [andThen ok]. now rewrite get_nonnullish.
    - destruct (getOpt (Obj props) "attributes"); try reflexivity; discriminate. }
  unfold titleOf, carouselTitle. rewrite Hen. cbn [andThen ok].
  change (getOptPath k ["attributes"; "title"; "en"]) with (getOpt names "en").
  change (getOptPath k ["attributes"; "title"; "ja-ro"]) with (getOpt names "ja-ro").
  change (getOptPath k ["attributes"; "title"; "ja"]) with (getOpt names "ja").
  split.
  - intros H1 H2. unfold orElse. rewrite H1, H2. auto.
  - intros H. set (first := orElse (getOpt names "en") (getOpt names "ja-ro")) in *.
    unfold orElse. now rewrite H.
Qed.

Lemma carousel_title_witness :
  let k := Obj [("attributes", Obj [("title", Obj [("ja", Str "Kimetsu")])])] in
  titleOf k = Str "Kimetsu" /\ carouselTitle k = ok Undefined.
Proof.
  intros k.
  destruct (@carousel_title_lacks_ja k eq_refl) as [Hfall _].
  exact (Hfall eq_refl eq_refl).
Defined.
